(** * inhouse_bot: the queue cog

    A shallow embedding of [inhouse_bot/cogs/queue_cog.py] (class [QueueCog])
    and the properties of its queue, matchmaking and result-reporting
    commands.

    Modelling decisions, all local to this file:
    - a [Player] object is identified with its [discord_id]: the SQLAlchemy
      session hands out one object per primary key, so set membership and
      equality of players are those of the ids;
    - Python [float]s (match scores, ratings) are rationals [Q]; only order
      comparisons against the literals [-0.1], [-0.2], [-1] are made on them;
    - [ctx.send] and [message.add_reaction] append to a log of messages;
    - a command is a function from the cog's state to a run: a result or a
      raised exception, the state reached, the messages sent. *)

From Stdlib Require Import QArith Qabs.
From stdpp Require Import gmap strings list fin_maps fin_sets sorting.

Local Open Scope Z_scope.

(** ** Data model *)

Inductive Team := blue | red.

Inductive Role := top | jungle | mid | bot | support.

(** [roles_list] of [inhouse_bot.sqlite.sqlite_utils], in the order the
    docstring of [queue] gives. *)
Definition roles_list : list Role := [top; jungle; mid; bot; support].

#[global] Instance Team_eq_dec : EqDecision Team.
Proof. solve_decision. Defined.

#[global] Instance Role_eq_dec : EqDecision Role.
Proof. solve_decision. Defined.

#[global] Instance Role_inhabited : Inhabited Role := populate top.

#[global] Instance Role_countable : Countable Role.
Proof.
  refine (inj_countable'
            (λ r, match r with
                  | top => 0%nat | jungle => 1%nat | mid => 2%nat
                  | bot => 3%nat | support => 4%nat end)
            (λ n, match n with
                  | 0%nat => top | 1%nat => jungle | 2%nat => mid
                  | 3%nat => bot | _ => support end) _).
  by intros [].
Defined.

(** A player, by [discord_id]. *)
Abbreviation Player := Z.

(** One row of [GameParticipant]. *)
Record GameParticipant := mkParticipant {
  player_id : Player;
  team : Team;
  role : Role;
  champion_id : option Z
}.

(** One row of [Game], without its primary key [id], which is the key of the
    table. [winner] is [None] until a result is reported. *)
Record Game := mkGame {
  date : Z;
  winner : option Team;
  participants : list GameParticipant
}.

(** One [PlayerRating]: a Gaussian skill estimate. *)
Record Rating := mkRating { mu : Q; sigma : Q }.

(** The SQLAlchemy session: the tables the cog reads and writes. [ratings]
    is [player.ratings], keyed by player and role. *)
Record Session := mkSession {
  players : gmap Z string;
  games : gmap Z Game;
  ratings : gmap (Z * Role) Rating
}.

(** The value of [channel_queues] at one channel: role -> set of players. *)
Abbreviation RoleQueues := (gmap Role (gset Z)).

(** [self]: the cog's mutable state. *)
Record QueueCog := mkCog {
  channel_queues : gmap Z RoleQueues;
  session : Session
}.

(** [players: [team, role] -> Player], a dict in insertion order. *)
Abbreviation Composition := (list ((Team * Role) * Player)).

Definition dict_values {K V} (d : list (K * V)) : list V := map snd d.

(** The invoking context: author and channel. *)
Record Context := mkContext {
  author_id : Z;
  author_name : string;
  channel_id : Z
}.

(** The table shown by [get_current_queue_embed]. *)
Abbreviation Embed := (list (Role * list string)).

(** What the cog sends to the channel. *)
Inductive Message :=
| LastGameOngoing
| NowInQueue (author : string) (clean_roles : list Role) (embed : Embed)
| ProposedGame (composition : Composition) (mismatch : bool)
| AddReaction (accept : bool)
| RemovedFromQueue (author : string) (all_channels : bool) (embed : Embed)
| GameCancelled (game_id : Z)
| ResultChanged (game_id : Z)
| RatingsRecomputed (game_id : Z).

(** ** Commands: state, exceptions and sent messages *)

Inductive Exn := TypeError | NoResultFound.

#[global] Instance Exn_eq_dec : EqDecision Exn.
Proof. solve_decision. Defined.

Inductive Result (A : Type) :=
| Ok (a : A)
| Raised (e : Exn).
Arguments Ok {A} a.
Arguments Raised {A} e.

Record Run (A : Type) := mkRun {
  result : Result A;
  self_after : QueueCog;
  sent : list Message
}.
Arguments mkRun {A} _ _ _.
Arguments result {A} _.
Arguments self_after {A} _.
Arguments sent {A} _.

Definition Cmd (A : Type) : Type := QueueCog → Run A.

Definition ret {A} (a : A) : Cmd A := λ self, mkRun (Ok a) self [].

Definition bind {A B} (m : Cmd A) (k : A → Cmd B) : Cmd B := λ self,
  let r := m self in
  match result r with
  | Ok a => let r' := k a (self_after r) in
            mkRun (result r') (self_after r') (sent r ++ sent r')
  | Raised e => mkRun (Raised e) (self_after r) (sent r)
  end.

Notation "x <- m ;; k" := (bind m (λ x, k))
  (at level 100, m at next level, right associativity).
Notation "m ;;; k" := (bind m (λ _, k))
  (at level 100, right associativity).

Definition raise {A} (e : Exn) : Cmd A := λ self, mkRun (Raised e) self [].

(** [try: m except e: handler]. *)
Definition try_except {A} (m : Cmd A) (e : Exn) (handler : Cmd A) : Cmd A :=
  λ self,
  let r := m self in
  match result r with
  | Ok a => r
  | Raised e' =>
      if decide (e' = e)
      then let r' := handler (self_after r) in
           mkRun (result r') (self_after r') (sent r ++ sent r')
      else r
  end.

Definition get_self : Cmd QueueCog := λ self, mkRun (Ok self) self [].

Definition set_channel_queues (q : gmap Z RoleQueues) : Cmd unit := λ self,
  mkRun (Ok tt) (mkCog q (session self)) [].

Definition set_session (s : Session) : Cmd unit := λ self,
  mkRun (Ok tt) (mkCog (channel_queues self) s) [].

Definition send (m : Message) : Cmd unit := λ self, mkRun (Ok tt) self [m].

(** [for x in xs: body x]. *)
Fixpoint for_each {A} (xs : list A) (body : A → Cmd unit) : Cmd unit :=
  match xs with
  | [] => ret tt
  | x :: xs' => body x ;;; for_each xs' body
  end.

(** [a, b = v]: unpacking [None] raises [TypeError]. *)
Definition unpack {A} (v : option A) : Cmd A :=
  match v with
  | Some x => ret x
  | None => raise TypeError
  end.

(** ** Iteration helpers of [itertools] *)

(** [t[i]] on a 2-tuple, for [i] in [(0, 1)]. *)
Definition tuple_getitem {A} (t : A * A) (i : nat) : A :=
  match i with
  | O => t.1
  | _ => t.2
  end.

(** [itertools.permutations(pool, 2)]: the pairs [(pool[i], pool[j])] with
    [i ≠ j], in lexicographic order of the indices. *)
Definition permutations2 {A} (pool : list A) : list (A * A) :=
  flat_map (λ '(i, x),
      flat_map (λ '(j, y), if decide (i = j) then [] else [(x, y)])
               (imap (λ j y, (j, y)) pool))
    (imap (λ i x, (i, x)) pool).

(** [itertools.product] of the lists [ls]: one element of each list, the
    rightmost list advancing fastest. *)
Fixpoint product {A} (ls : list (list A)) : list (list A) :=
  match ls with
  | [] => [[]]
  | l :: ls' => flat_map (λ x, map (cons x) (product ls')) l
  end.

(** ** The cog *)

(** The factory of the [defaultdict]: [{role: set() for role in roles_list}]. *)
Definition default_queues : RoleQueues :=
  list_to_map (map (λ role, (role, ∅)) roles_list).

(** [self.channel_queues[channel_id]]: reading a missing key of the
    [defaultdict] stores the default there. *)
Definition channel_queues_getitem (channel_id : Z) : Cmd RoleQueues :=
  self <- get_self ;;
  match channel_queues self !! channel_id with
  | Some queues => ret queues
  | None =>
      set_channel_queues (<[channel_id := default_queues]> (channel_queues self)) ;;;
      ret default_queues
  end.

(** [self.channel_queues[channel_id][role].add(player)]. Every dict stored in
    [channel_queues] has the five roles as keys, so the inner lookup is
    total. *)
Definition queue_add (channel_id : Z) (role : Role) (player : Player) : Cmd unit :=
  queues <- channel_queues_getitem channel_id ;;
  self <- get_self ;;
  set_channel_queues
    (<[channel_id := <[role := {[player]} ∪ queues !!! role]> queues]>
       (channel_queues self)).

(** [self.channel_queues[channel_id][role].discard(player)]. *)
Definition queue_discard (channel_id : Z) (role : Role) (player : Player) : Cmd unit :=
  queues <- channel_queues_getitem channel_id ;;
  self <- get_self ;;
  set_channel_queues
    (<[channel_id := <[role := queues !!! role ∖ {[player]}]> queues]>
       (channel_queues self)).

(** [get_player]: merges the author into the session and commits. *)
Definition get_player (ctx : Context) : Cmd Player :=
  self <- get_self ;;
  let s := session self in
  set_session (mkSession (<[author_id ctx := author_name ctx]> (players s))
                         (games s) (ratings s)) ;;;
  ret (author_id ctx).

(** The rows of [query(Game, GameParticipant).join(GameParticipant)]. *)
Definition game_rows (s : Session) : list (Z * Game * GameParticipant) :=
  flat_map (λ '(game_id, game), map (λ p, (game_id, game, p)) (participants game))
           (map_to_list (games s)).

(** [order_by(Game.date.desc())]: a sort on the date, latest first. *)
Definition date_desc (a b : Z * Game * GameParticipant) : Prop :=
  date b.1.2 ≤ date a.1.2.

#[global] Instance date_desc_dec : RelDecision date_desc.
Proof. intros a b. unfold date_desc. apply _. Defined.

Definition order_by_date_desc (rows : list (Z * Game * GameParticipant)) :
    list (Z * Game * GameParticipant) :=
  merge_sort date_desc rows.

(** The query of [get_last]: join, filter on the player, latest first,
    [first()]. *)
Definition get_last_query (s : Session) (player : Player) :
    option (Z * Game * GameParticipant) :=
  head (order_by_date_desc
          (filter (λ row, player_id row.2 = player) (game_rows s))).

(** [get_last]: the most recent game of the player and their row in it, or
    [None]. *)
Definition get_last (player : Player) : Cmd (option (Z * Game * GameParticipant)) :=
  self <- get_self ;;
  ret (get_last_query (session self) player).

(** The players waiting for [role] in [channel_id]: a read of
    [channel_queues] that stores nothing. *)
Definition waiting (q : gmap Z RoleQueues) (channel_id : Z) (role : Role) : gset Z :=
  match q !! channel_id with
  | Some queues => queues !!! role
  | None => ∅
  end.

(** [get_current_queue_embed]. *)
Definition get_current_queue_embed (ctx : Context) : Cmd Embed :=
  queues <- channel_queues_getitem (channel_id ctx) ;;
  self <- get_self ;;
  ret (map (λ role,
              (role, map (λ p, default EmptyString (players (session self) !! p))
                         (elements (queues !!! role))))
           roles_list).

(** [update_trueskill]: a stub, [pass]. *)
Definition update_trueskill (game_id : Z) : Cmd unit := ret tt.

(** [remove_players_from_queue]: a stub, [pass]. *)
Definition remove_players_from_queue (players : list Player) : Cmd unit := ret tt.

Section Commands.

(** [trueskill_blue_side_winrate] of [inhouse_bot.common_utils]: the
    estimated probability that blue wins, read off the ratings of the ten
    players. Its body is not part of the cog. *)
Variable trueskill_blue_side_winrate :
  gmap (Z * Role) Rating → Composition → Q.

(** The constructor [PlayerRating(player, role)]: a fresh rating. *)
Variable new_PlayerRating : Player → Role → Rating.

(** The dict comprehension of [match_game]:
    [{('red' if tuple_idx else 'blue', roles_list[role_idx]): players_tuple[tuple_idx]
      for role_idx, players_tuple in enumerate(team_composition)
      for tuple_idx in (0, 1)}]. *)
Definition composition_dict (team_composition : list (Player * Player)) : Composition :=
  flat_map (λ '(role_idx, players_tuple),
      map (λ tuple_idx : nat,
             ((match tuple_idx with O => blue | _ => red end,
               roles_list !!! role_idx),
              tuple_getitem players_tuple tuple_idx))
          [0%nat; 1%nat])
    (imap (λ role_idx players_tuple, (role_idx, players_tuple)) team_composition).

(** One turn of the maximum search of [match_game]. *)
Definition match_game_step (rt : gmap (Z * Role) Rating)
    (best : Composition * Q) (team_composition : list (Player * Player)) :
    Composition * Q :=
  let '(best_players, best_score) := best in
  let players := composition_dict team_composition in
  if decide (size (list_to_set (C := gset Z) (dict_values players)) ≠ 10%nat)
  then best
  else
    let score := (- Qabs (0.5 - trueskill_blue_side_winrate rt players))%Q in
    if Qlt_le_dec best_score score then (players, score) else best.

(** The search of [match_game] on the queues of the channel:
    [(None, -1)] when a role has fewer than two players, else the best
    composition found (the empty dict when none passes the distinctness
    test) and its score. *)
Definition match_game_search (rt : gmap (Z * Role) Rating)
    (queues : RoleQueues) : option Composition * Q :=
  if existsb (λ role, bool_decide (size (queues !!! role) < 2)%nat) roles_list
  then (None, (-1)%Q)
  else
    let role_permutations :=
      map (λ role, permutations2 (elements (queues !!! role))) roles_list in
    let best :=
      foldl (match_game_step rt) ([], (-1)%Q) (product role_permutations) in
    (Some best.1, best.2).

(** [match_game]: the search, on [self.channel_queues[channel_id]] and the
    ratings the session holds. *)
Definition match_game (channel_id : Z) : Cmd (option Composition * Q) :=
  queues <- channel_queues_getitem channel_id ;;
  self <- get_self ;;
  ret (match_game_search (ratings (session self)) queues).

(** [start_game]: announces the proposed game; [game_start] is the
    constant [False], so the players stay in the queue. A [players] of
    [None] cannot be turned into a [Game]. *)
Definition start_game (ctx : Context) (players : option Composition)
    (mismatch : bool) : Cmd unit :=
  match players with
  | None => raise TypeError
  | Some players =>
      send (ProposedGame players mismatch) ;;;
      send (AddReaction true) ;;;
      send (AddReaction false) ;;;
      let game_start := false in
      if game_start
      then remove_players_from_queue (dict_values players)
      else ret tt
  end.

(** The [try] block at the head of [queue]: [true] when the command
    returns there, because the last game of the player has no winner.
    Unpacking the [None] of a player without games raises [TypeError],
    which the [except] clause passes over. *)
Definition queue_last_game_check (player : Player) : Cmd bool :=
  try_except
    (last <- get_last player ;;
     row <- unpack last ;;
     let '(_, game, _) := row in
     match winner game with
     | None => send LastGameOngoing ;;; ret true
     | Some _ => ret false
     end)
    TypeError
    (ret false).

(** The body of the loop of [queue] over [clean_roles]. *)
Definition queue_role (ctx : Context) (player : Player) (role : Role) : Cmd unit :=
  self <- get_self ;;
  let s := session self in
  match ratings s !! (player, role) with
  | None =>
      set_session (mkSession (players s) (games s)
                     (<[(player, role) := new_PlayerRating player role]>
                        (ratings s)))
  | Some _ => ret tt
  end ;;;
  queue_add (channel_id ctx) role player.

(** [queue], up to the message that the player is in queue. Returns
    [true] when the command returned early. *)
Definition queue_enqueue (ctx : Context) (clean_roles : list Role) : Cmd bool :=
  player <- get_player ctx ;;
  returned <- queue_last_game_check player ;;
  if returned : bool then ret true
  else
    for_each clean_roles (queue_role ctx player) ;;;
    embed <- get_current_queue_embed ctx ;;
    send (NowInQueue (author_name ctx) clean_roles embed) ;;;
    ret false.

(** [queue], from the call of [match_game] on. *)
Definition queue_matchmaking (ctx : Context) : Cmd unit :=
  found <- match_game (channel_id ctx) ;;
  let '(players, match_quality) := found in
  if Qlt_le_dec (-0.1) match_quality then start_game ctx players false
  else if Qlt_le_dec (-0.2) match_quality then start_game ctx players true
  else ret tt.

(** The command [queue]; [clean_roles] are the roles the fuzzy matcher
    made of the arguments. *)
Definition queue (ctx : Context) (clean_roles : list Role) : Cmd unit :=
  returned <- queue_enqueue ctx clean_roles ;;
  if returned : bool then ret tt else queue_matchmaking ctx.

End Commands.

(** [leave_queue]: [args] are the words after the command. *)
Definition leave_queue (ctx : Context) (args : list string) : Cmd unit :=
  player <- get_player ctx ;;
  self <- get_self ;;
  let channels :=
    match args with
    | [] => [channel_id ctx]
    | _ :: _ => (map_to_list (channel_queues self)).*1
    end in
  for_each channels (λ channel_id,
    queues <- channel_queues_getitem channel_id ;;
    for_each (map_to_list queues).*1 (λ role,
      queue_discard channel_id role player)) ;;;
  embed <- get_current_queue_embed ctx ;;
  send (RemovedFromQueue (author_name ctx)
          (match args with [] => false | _ :: _ => true end) embed).

(** [cancel_game]: [.one()] raises when no game has the id; the id is the
    primary key, so there is at most one. *)
Definition cancel_game (ctx : Context) (game_id : Z) : Cmd unit :=
  self <- get_self ;;
  let s := session self in
  match games s !! game_id with
  | None => raise NoResultFound
  | Some game =>
      set_session (mkSession (players s) (delete game_id (games s)) (ratings s)) ;;;
      send (GameCancelled game_id)
  end.

(** [game.winner = w] on the game object of the session. *)
Definition set_winner (game_id : Z) (w : Team) : Cmd unit :=
  self <- get_self ;;
  let s := session self in
  set_session (mkSession (players s)
                 (alter (λ g, mkGame (date g) (Some w) (participants g))
                        game_id (games s))
                 (ratings s)).

(** [score_game]. *)
Definition score_game (ctx : Context) (result : bool) : Cmd unit :=
  player <- get_player ctx ;;
  last <- get_last player ;;
  row <- unpack last ;;
  let '(game_id, game, game_participant) := row in
  let previous_winner := winner game in
  let new_winner :=
    if bool_decide (team game_participant = blue) && result then blue else red in
  set_winner game_id new_winner ;;;
  match previous_winner with
  | Some w =>
      if decide (w ≠ new_winner)
      then send (ResultChanged game_id) ;;; send (RatingsRecomputed game_id)
      else ret tt
  | None => ret tt
  end ;;;
  update_trueskill game_id.

(** [won] and [lost], invoked without arguments: [update_champion] returns
    at once on empty [args]. *)
Definition won (ctx : Context) : Cmd unit := score_game ctx true.

Definition lost (ctx : Context) : Cmd unit := score_game ctx false.

(** ** Concrete states used by the examples *)

Definition slots : list (Team * Role) :=
  [(blue, top); (red, top); (blue, jungle); (red, jungle); (blue, mid);
   (red, mid); (blue, bot); (red, bot); (blue, support); (red, support)].

(** Ten players, ids 1 to 10, one per slot: odd ids are blue. *)
Definition ten_participants : list GameParticipant :=
  imap (λ i '(t, r), mkParticipant (Z.of_nat (S i)) t r None) slots.

Definition empty_session : Session := mkSession ∅ ∅ ∅.

Definition empty_cog : QueueCog := mkCog ∅ empty_session.

Definition ctx_of (player : Z) (channel : Z) : Context :=
  mkContext player "player" channel.

(** ** Predicates and state functions used by the statements *)

(** What the maximum search keeps: nothing, or a dict on the ten slots whose
    players are pairwise distinct. *)
Definition well_drafted (players : Composition) : Prop :=
  players = [] ∨ (players.*1 = slots ∧ NoDup (dict_values players)).

(** The state of [channel_queues] after a read of [channel_id]. *)
Definition touch (channel_id : Z) (q : gmap Z RoleQueues) : gmap Z RoleQueues :=
  match q !! channel_id with
  | Some _ => q
  | None => <[channel_id := default_queues]> q
  end.

(** The value a read of [channel_id] returns. *)
Definition channel_of (q : gmap Z RoleQueues) (channel_id : Z) : RoleQueues :=
  default default_queues (q !! channel_id).

(** The session after [get_player]: the author merged into [players]. *)
Definition merge_author (ctx : Context) (self : QueueCog) : QueueCog :=
  let s := session self in
  mkCog (channel_queues self)
        (mkSession (<[author_id ctx := author_name ctx]> (players s))
                   (games s) (ratings s)).

(** The test at the head of [queue]: the player has a last game and it has
    no winner. *)
Definition last_game_ongoing (s : Session) (player : Player) : bool :=
  match get_last_query s player with
  | Some (_, game, _) =>
      match winner game with
      | None => true
      | Some _ => false
      end
  | None => false
  end.

(** One turn of the loop of [queue] over [clean_roles], as a function on
    states. *)
Definition enqueue_role (new_PlayerRating : Player → Role → Rating)
    (player : Player) (channel_id : Z) (self : QueueCog) (role : Role) : QueueCog :=
  let s := session self in
  let q := channel_queues self in
  mkCog (<[channel_id :=
             <[role := {[player]} ∪ channel_of q channel_id !!! role]>
               (channel_of q channel_id)]> q)
        (match ratings s !! (player, role) with
         | None =>
             mkSession (players s) (games s)
               (<[(player, role) := new_PlayerRating player role]> (ratings s))
         | Some _ => s
         end).

(** The table of [get_current_queue_embed], read off a state. *)
Definition queue_table (self : QueueCog) (channel_id : Z) : Embed :=
  map (λ role,
         (role, map (λ p, default EmptyString (players (session self) !! p))
                    (elements (channel_of (channel_queues self) channel_id !!! role))))
      roles_list.

(** The state after the enqueue step of [queue], for an admitted player. *)
Definition enqueued (new_PlayerRating : Player → Role → Rating)
    (ctx : Context) (clean_roles : list Role) (self : QueueCog) : QueueCog :=
  let self' :=
    foldl (enqueue_role new_PlayerRating (author_id ctx) (channel_id ctx))
          (merge_author ctx self) clean_roles in
  mkCog (touch (channel_id ctx) (channel_queues self')) (session self').

(** [player] is rated for [role] and waits for it in [channel_id]. *)
Definition joined (player : Player) (channel_id : Z) (role : Role)
    (self : QueueCog) : Prop :=
  is_Some (ratings (session self) !! (player, role)) ∧
  ∃ queues X, channel_queues self !! channel_id = Some queues ∧
              queues !! role = Some X ∧ player ∈ X.

(** ** Concrete inputs *)

(** A win-rate estimate that finds every composition even. *)
Definition even_winrate (rt : gmap (Z * Role) Rating) (c : Composition) : Q := 0.5%Q.

(** A win-rate estimate that gives blue 60 percent in every composition. *)
Definition blue_favoured_winrate (rt : gmap (Z * Role) Rating) (c : Composition) : Q :=
  0.6%Q.

(** The rating a new [PlayerRating] starts from: the defaults of TrueSkill. *)
Definition initial_rating (player : Player) (role : Role) : Rating :=
  mkRating 25 (25 # 3).

(** A session with one game, number 1, of the ten players above. *)
Definition one_game_cog (w : option Team) : QueueCog :=
  mkCog ∅ (mkSession ∅ {[1 := mkGame 100 w ten_participants]} ∅).

(** A session where game 1 never got a result and the later game 2 was won
    by red. *)
Definition two_games_cog : QueueCog :=
  mkCog ∅ (mkSession ∅
             (<[1 := mkGame 100 None ten_participants]>
                {[2 := mkGame 200 (Some red) ten_participants]})
             ∅).

(** Channel 7 with players 1 to 9 waiting: two per role, one for support. *)
Definition nine_waiting_cog : QueueCog :=
  mkCog {[7 := <[top := {[1; 2]}]> (<[jungle := {[3; 4]}]> (<[mid := {[5; 6]}]>
                 (<[bot := {[7; 8]}]> (<[support := {[9]}]> default_queues))))]}
        empty_session.

(** Channel 7 with players 1 to 10 waiting, two per role. *)
Definition ten_waiting_cog : QueueCog :=
  mkCog {[7 := <[top := {[1; 2]}]> (<[jungle := {[3; 4]}]> (<[mid := {[5; 6]}]>
                 (<[bot := {[7; 8]}]> (<[support := {[9; 10]}]> default_queues))))]}
        empty_session.

(** The winner [score_game] computes from the reporter's team and claim. *)
Definition scored_winner (t : Team) (claimed_win : bool) : Team :=
  if bool_decide (t = blue) && claimed_win then blue else red.

(** The state after [game.winner = w] on game [game_id]. *)
Definition with_winner (game_id : Z) (w : Team) (self : QueueCog) : QueueCog :=
  let s := session self in
  mkCog (channel_queues self)
        (mkSession (players s)
           (alter (λ g, mkGame (date g) (Some w) (participants g)) game_id (games s))
           (ratings s)).

(** The other team. *)
Definition opposing (t : Team) : Team :=
  match t with
  | blue => red
  | red => blue
  end.

(** One [discard] of [leave_queue], as a function on [channel_queues]. *)
Definition discard_role (player : Player) (channel_id : Z)
    (q : gmap Z RoleQueues) (role : Role) : gmap Z RoleQueues :=
  <[channel_id :=
      <[role := channel_of q channel_id !!! role ∖ {[player]}]>
        (channel_of q channel_id)]> q.

(** One turn of the outer loop of [leave_queue]: the channel is read, then
    the player is discarded from each of its role queues. *)
Definition discard_channel (player : Player) (q : gmap Z RoleQueues)
    (channel_id : Z) : gmap Z RoleQueues :=
  foldl (discard_role player channel_id) (touch channel_id q)
        (map_to_list (channel_of q channel_id)).*1.

(** The channels [leave_queue] goes through. *)
Definition leave_channels (ctx : Context) (args : list string)
    (q : gmap Z RoleQueues) : list Z :=
  match args with
  | [] => [channel_id ctx]
  | _ :: _ => (map_to_list q).*1
  end.

(** ** Replaying a rating *)

(** Modelled from the spec: the replay of a player's rating. The cog has no
    rating update (the body of [update_trueskill] is [pass]), so the rule
    [updateRatings] is a parameter: the rating of [player] in [role] after a
    game with the given winner. The replay applies it over the player's
    games that have a winner, oldest first. *)
Section Replay.
Variable updateRatings : Game → Team → Player → Role → Rating → Rating.

Definition date_asc (a b : Game) : Prop := date a ≤ date b.

#[local] Instance date_asc_dec : RelDecision date_asc.
Proof. intros a b. unfold date_asc. apply _. Defined.

Definition completed_games_of (s : Session) (player : Player) (r : Role) :
    list Game :=
  merge_sort date_asc
    (filter (λ g, is_Some (winner g) ∧
                  Exists (λ p, player_id p = player ∧ role p = r) (participants g))
            (map_to_list (games s)).*2).

Definition replay (s : Session) (player : Player) (r : Role)
    (init : Rating) : Rating :=
  foldl (λ rating g,
           match winner g with
           | Some w => updateRatings g w player r rating
           | None => rating
           end)
        init (completed_games_of s player r).
End Replay.

(** Game 1 of the ten players, unscored, with player 1 rated for top. *)
Definition rated_game_cog : QueueCog :=
  mkCog ∅ (mkSession ∅ {[1 := mkGame 100 None ten_participants]}
             {[(1, top) := initial_rating 1 top]}).

(** An update rule that moves the mean by one: up for the winners, down for
    the others. *)
Definition unit_shift (g : Game) (w : Team) (player : Player) (r : Role)
    (rating : Rating) : Rating :=
  if bool_decide (Exists (λ p, player_id p = player ∧ team p = w) (participants g))
  then mkRating (mu rating + 1) (sigma rating)
  else mkRating (mu rating - 1) (sigma rating).


(** ** Notions used by the further properties of the matchmaker *)

(** The team compositions [match_game] goes through: the product of the
    ordered pairs of each role queue. *)
Definition enumerated (queues : RoleQueues) : list (list (Player * Player)) :=
  product (map (λ role, permutations2 (elements (queues !!! role))) roles_list).

(** The test [set(players.values()).__len__() == 10]. *)
Definition all_distinct (players : Composition) : Prop :=
  size (list_to_set (C := gset Z) (dict_values players)) = 10%nat.

(** The score of a composition: [-abs(0.5 - trueskill_blue_side_winrate(players))]. *)
Definition composition_score
    (trueskill_blue_side_winrate : gmap (Z * Role) Rating → Composition → Q)
    (rt : gmap (Z * Role) Rating) (players : Composition) : Q :=
  (- Qabs (0.5 - trueskill_blue_side_winrate rt players))%Q.

(** What the maximum search keeps, with its score. *)
Definition search_invariant
    (wr : gmap (Z * Role) Rating → Composition → Q) (rt : gmap (Z * Role) Rating)
    (queues : RoleQueues) (seen : list (list (Player * Player)))
    (best : Composition * Q) : Prop :=
  ((best.1 = [] ∧ best.2 = (-1)%Q) ∨
   (∃ tc, tc ∈ seen ∧ best.1 = composition_dict tc ∧ all_distinct best.1 ∧
          best.2 = composition_score wr rt best.1 ∧ (-1 < best.2)%Q)) ∧
  (-1 <= best.2)%Q ∧
  ∀ tc, tc ∈ seen → all_distinct (composition_dict tc) →
        (composition_score wr rt (composition_dict tc) <= best.2)%Q.

(** Players 1, 3, 5, 7, 9 on blue against 2, 4, 6, 8, 10 on red. *)
Definition odd_against_even : list (Player * Player) :=
  [(1, 2); (3, 4); (5, 6); (7, 8); (9, 10)].
(** ** Lists, sets and the iteration helpers *)

Lemma size_list_to_set_le (l : list Z) :
  (size (list_to_set (C := gset Z) l) ≤ length l)%nat.
Proof.
  induction l as [|x l IH].
  - done.
  - rewrite list_to_set_cons, size_union_alt, size_singleton. simpl.
    assert (size (list_to_set (C := gset Z) l ∖ {[x]}) ≤ size (list_to_set (C := gset Z) l))%nat
      by (apply subseteq_size; set_solver).
    lia.
Qed.

Lemma size_list_to_set_NoDup (l : list Z) :
  size (list_to_set (C := gset Z) l) = length l → NoDup l.
Proof.
  induction l as [|x l IH]; intros Hsz.
  - constructor.
  - rewrite list_to_set_cons in Hsz. simpl in Hsz.
    pose proof (size_list_to_set_le l) as Hle.
    destruct (decide (x ∈ l)) as [Hin|Hnin].
    + assert ({[x]} ∪ list_to_set l = (list_to_set l : gset Z)) as Heq
        by (apply leibniz_equiv; set_solver).
      rewrite Heq in Hsz. lia.
    + constructor; [done|]. apply IH.
      rewrite size_union in Hsz by set_solver.
      rewrite size_singleton in Hsz. lia.
Qed.

Lemma product_length {A} (ls : list (list A)) (xs : list A) :
  xs ∈ product ls → length xs = length ls.
Proof.
  revert xs. induction ls as [|l ls IH]; simpl; intros xs Hin.
  - apply list_elem_of_singleton in Hin. by subst.
  - apply list_elem_of_In, in_flat_map in Hin as (x & _ & Hin).
    apply list_elem_of_In, list_elem_of_fmap in Hin as (ys & -> & Hys).
    simpl. f_equal. by apply IH.
Qed.

Lemma foldl_invariant {A B} (P : B → Prop) (f : B → A → B) (l : list A) (b : B) :
  P b → (∀ b x, x ∈ l → P b → P (f b x)) → P (foldl f b l).
Proof.
  revert b. induction l as [|x l IH]; simpl; intros b Hb Hstep; [done|].
  apply IH.
  - apply Hstep; [left|done].
  - intros b' y Hy. apply Hstep. by right.
Qed.

(** ** Runs of the basic operations *)

Lemma bind_run {A B} (m : Cmd A) (k : A → Cmd B) self a self' msgs :
  m self = mkRun (Ok a) self' msgs →
  bind m k self =
  mkRun (result (k a self')) (self_after (k a self')) (msgs ++ sent (k a self')).
Proof. unfold bind. by intros ->. Qed.

Lemma run_eta {A} (r : Run A) : mkRun (result r) (self_after r) (sent r) = r.
Proof. by destruct r. Qed.

Lemma bind_run_silent {A B} (m : Cmd A) (k : A → Cmd B) self a self' :
  m self = mkRun (Ok a) self' [] → bind m k self = k a self'.
Proof. intros Hm. rewrite (bind_run _ _ _ _ _ _ Hm). apply run_eta. Qed.

Lemma for_each_foldl {A} (xs : list A) (body : A → Cmd unit)
    (f : QueueCog → A → QueueCog) self :
  (∀ x s, body x s = mkRun (Ok tt) (f s x) []) →
  for_each xs body self = mkRun (Ok tt) (foldl f self xs) [].
Proof.
  intros Hbody. revert self. induction xs as [|x xs IH]; intros self; simpl.
  - done.
  - by rewrite (bind_run_silent _ _ _ _ _ (Hbody x self)).
Qed.

Lemma channel_queues_getitem_run (channel_id : Z) (self : QueueCog) :
  channel_queues_getitem channel_id self =
  mkRun (Ok (channel_of (channel_queues self) channel_id))
        (mkCog (touch channel_id (channel_queues self)) (session self)) [].
Proof.
  unfold channel_queues_getitem, channel_of, touch, bind, get_self. simpl.
  destruct (channel_queues self !! channel_id); simpl; [|done].
  by destruct self.
Qed.

Lemma touch_lookup (channel_id : Z) (q : gmap Z RoleQueues) :
  touch channel_id q !! channel_id = Some (channel_of q channel_id).
Proof.
  unfold touch, channel_of.
  destruct (q !! channel_id) eqn:Hq; simpl; [done|]. by rewrite lookup_insert_eq.
Qed.

Lemma touch_present (channel_id : Z) (q : gmap Z RoleQueues) :
  is_Some (q !! channel_id) → touch channel_id q = q.
Proof. unfold touch. by intros [queues ->]. Qed.

Lemma touch_touch (channel_id : Z) (q : gmap Z RoleQueues) :
  touch channel_id (touch channel_id q) = touch channel_id q.
Proof. apply touch_present. rewrite touch_lookup. by eexists. Qed.

Lemma insert_touch (channel_id : Z) (queues : RoleQueues) (q : gmap Z RoleQueues) :
  <[channel_id := queues]> (touch channel_id q) = <[channel_id := queues]> q.
Proof.
  unfold touch. destruct (q !! channel_id); [done|]. by rewrite insert_insert_eq.
Qed.

Lemma queue_add_run (channel_id : Z) (role : Role) (player : Player) self :
  queue_add channel_id role player self =
  mkRun (Ok tt)
    (mkCog (<[channel_id :=
               <[role := {[player]} ∪ channel_of (channel_queues self) channel_id !!! role]>
                 (channel_of (channel_queues self) channel_id)]> (channel_queues self))
           (session self)) [].
Proof.
  unfold queue_add.
  rewrite (bind_run_silent _ _ _ _ _ (channel_queues_getitem_run _ _)).
  unfold bind, get_self, set_channel_queues. simpl. by rewrite insert_touch.
Qed.

Lemma queue_discard_run (channel_id : Z) (role : Role) (player : Player) self :
  queue_discard channel_id role player self =
  mkRun (Ok tt)
    (mkCog (<[channel_id :=
               <[role := channel_of (channel_queues self) channel_id !!! role ∖ {[player]}]>
                 (channel_of (channel_queues self) channel_id)]> (channel_queues self))
           (session self)) [].
Proof.
  unfold queue_discard.
  rewrite (bind_run_silent _ _ _ _ _ (channel_queues_getitem_run _ _)).
  unfold bind, get_self, set_channel_queues. simpl. by rewrite insert_touch.
Qed.

Lemma get_player_run (ctx : Context) self :
  get_player ctx self = mkRun (Ok (author_id ctx)) (merge_author ctx self) [].
Proof. done. Qed.

Lemma get_last_run (player : Player) self :
  get_last player self = mkRun (Ok (get_last_query (session self) player)) self [].
Proof. done. Qed.

Lemma get_current_queue_embed_run (ctx : Context) self :
  get_current_queue_embed ctx self =
  mkRun (Ok (queue_table self (channel_id ctx)))
        (mkCog (touch (channel_id ctx) (channel_queues self)) (session self)) [].
Proof.
  unfold get_current_queue_embed.
  by rewrite (bind_run_silent _ _ _ _ _ (channel_queues_getitem_run _ _)).
Qed.

(** ** The matchmaker *)

Lemma composition_dict_keys (team_composition : list (Player * Player)) :
  length team_composition = 5%nat →
  (composition_dict team_composition).*1 = slots.
Proof.
  intros Hlen.
  destruct team_composition as [|? [|? [|? [|? [|? [|? ?]]]]]]; try discriminate.
  reflexivity.
Qed.

Lemma match_game_step_well_drafted wr rt best team_composition :
  length team_composition = 5%nat →
  well_drafted best.1 →
  well_drafted (match_game_step wr rt best team_composition).1.
Proof.
  intros Hlen Hbest. destruct best as [best_players best_score].
  unfold match_game_step. case_decide as Hsize; [done|].
  destruct (Qlt_le_dec _ _); [|done].
  right. cbn [fst]. pose proof (composition_dict_keys _ Hlen) as Hkeys.
  split; [done|]. apply size_list_to_set_NoDup.
  rewrite Hsize.
  unfold dict_values. rewrite length_map.
  rewrite <- (length_fmap fst), Hkeys. reflexivity.
Qed.

Lemma match_game_run wr (channel_id : Z) (self : QueueCog) :
  match_game wr channel_id self =
  mkRun (Ok (match_game_search wr (ratings (session self))
               (channel_of (channel_queues self) channel_id)))
        (mkCog (touch channel_id (channel_queues self)) (session self)) [].
Proof.
  unfold match_game, bind. by rewrite channel_queues_getitem_run.
Qed.

Lemma match_game_search_well_drafted wr rt queues players score :
  match_game_search wr rt queues = (Some players, score) → well_drafted players.
Proof.
  unfold match_game_search.
  set (role_permutations := map _ roles_list).
  assert (length role_permutations = 5%nat) as Hlen by reflexivity.
  clearbody role_permutations.
  destruct (existsb _ roles_list); [done|]. intros [= <- _].
  apply (foldl_invariant (λ best, well_drafted best.1)); [by left|].
  intros best tc Htc Hbest.
  apply match_game_step_well_drafted; [|done].
  apply product_length in Htc. by rewrite Htc.
Qed.

(** C3. Whenever [match_game] returns a non-empty composition, it maps the
    ten (team, role) slots to ten pairwise distinct players, whatever the
    queues are and also when a player waits in several role queues. *)
Theorem match_game_no_double_draft wr (channel_id : Z) (self : QueueCog)
    (players : Composition) (score : Q) :
  result (match_game wr channel_id self) = Ok (Some players, score) →
  players ≠ [] →
  players.*1 = slots ∧ length (dict_values players) = 10%nat ∧
  NoDup (dict_values players).
Proof.
  rewrite match_game_run. simpl. intros [= Hres] Hne.
  apply match_game_search_well_drafted in Hres as [?|[Hkeys Hnd]]; [done|].
  split; [done|]. split; [|done].
  unfold dict_values. by rewrite length_map, <- (length_fmap fst), Hkeys.
Qed.

(** The search on ten players, two per role, under an estimate that finds
    every composition even. *)
Lemma match_game_no_double_draft_witness :
  [(blue, top, 2); (red, top, 1); (blue, jungle, 3); (red, jungle, 4);
   (blue, mid, 5); (red, mid, 6); (blue, bot, 7); (red, bot, 8);
   (blue, support, 9); (red, support, 10)].*1 = slots ∧
  length [2; 1; 3; 4; 5; 6; 7; 8; 9; 10] = 10%nat ∧
  NoDup [2; 1; 3; 4; 5; 6; 7; 8; 9; 10].
Proof.
  eapply (match_game_no_double_draft even_winrate 7 ten_waiting_cog
            [(blue, top, 2); (red, top, 1); (blue, jungle, 3); (red, jungle, 4);
             (blue, mid, 5); (red, mid, 6); (blue, bot, 7); (red, bot, 8);
             (blue, support, 9); (red, support, 10)]).
  - vm_compute. reflexivity.
  - discriminate.
Defined.

(** ** The command [queue] *)

Lemma queue_role_run nr (ctx : Context) (player : Player) (role : Role) self :
  queue_role nr ctx player role self =
  mkRun (Ok tt) (enqueue_role nr player (channel_id ctx) self role) [].
Proof.
  unfold queue_role, enqueue_role.
  unfold bind at 1. unfold get_self at 1. cbn [result self_after sent].
  destruct (ratings (session self) !! (player, role)) eqn:Hr.
  - unfold bind, ret. cbn [result self_after sent]. by rewrite queue_add_run.
  - unfold bind, set_session. cbn [result self_after sent].
    by rewrite queue_add_run.
Qed.

Lemma queue_last_game_check_run (player : Player) self :
  queue_last_game_check player self =
  mkRun (Ok (last_game_ongoing (session self) player)) self
        (if last_game_ongoing (session self) player then [LastGameOngoing] else []).
Proof.
  unfold queue_last_game_check, try_except, last_game_ongoing.
  rewrite (bind_run_silent _ _ _ _ _ (get_last_run _ _)).
  destruct (get_last_query (session self) player)
    as [[[game_id game] participant]|]; [|done].
  unfold unpack, bind, ret. cbn [result self_after sent].
  by destruct (winner game).
Qed.

Lemma queue_enqueue_run nr (ctx : Context) (clean_roles : list Role) self :
  queue_enqueue nr ctx clean_roles self =
  if last_game_ongoing (session self) (author_id ctx)
  then mkRun (Ok true) (merge_author ctx self) [LastGameOngoing]
  else mkRun (Ok false) (enqueued nr ctx clean_roles self)
         [NowInQueue (author_name ctx) clean_roles
            (queue_table
               (foldl (enqueue_role nr (author_id ctx) (channel_id ctx))
                      (merge_author ctx self) clean_roles)
               (channel_id ctx))].
Proof.
  unfold queue_enqueue.
  rewrite (bind_run_silent _ _ _ _ _ (get_player_run _ _)).
  rewrite (bind_run _ _ _ _ _ _ (queue_last_game_check_run _ _)).
  assert (last_game_ongoing (session (merge_author ctx self)) (author_id ctx) =
          last_game_ongoing (session self) (author_id ctx)) as -> by done.
  destruct (last_game_ongoing (session self) (author_id ctx)); [done|].
  rewrite (bind_run_silent _ _ _ _ _
             (for_each_foldl _ _ _ _ (queue_role_run nr ctx (author_id ctx)))).
  by rewrite (bind_run_silent _ _ _ _ _ (get_current_queue_embed_run _ _)).
Qed.

Lemma match_game_search_None wr rt queues s :
  match_game_search wr rt queues = (None, s) → s = (-1)%Q.
Proof.
  unfold match_game_search. destruct (existsb _ roles_list); [|done].
  by intros [= <-].
Qed.

Lemma start_game_run (ctx : Context) (players : Composition) (mismatch : bool) self :
  start_game ctx (Some players) mismatch self =
  mkRun (Ok tt) self
        [ProposedGame players mismatch; AddReaction true; AddReaction false].
Proof. done. Qed.

Lemma queue_matchmaking_run wr (ctx : Context) self :
  queue_matchmaking wr ctx self =
  let found := match_game_search wr (ratings (session self))
                 (channel_of (channel_queues self) (channel_id ctx)) in
  let self' := mkCog (touch (channel_id ctx) (channel_queues self)) (session self) in
  if Qlt_le_dec (-0.1) found.2 then start_game ctx found.1 false self'
  else if Qlt_le_dec (-0.2) found.2 then start_game ctx found.1 true self'
  else mkRun (Ok tt) self' [].
Proof.
  unfold queue_matchmaking.
  rewrite (bind_run_silent _ _ _ _ _ (match_game_run _ _ _)).
  destruct (match_game_search _ _ _) as [players match_quality]. cbn [fst snd].
  destruct (Qlt_le_dec (-0.1) match_quality); [done|].
  by destruct (Qlt_le_dec (-0.2) match_quality).
Qed.

Lemma enqueued_touched nr (ctx : Context) (clean_roles : list Role) self :
  touch (channel_id ctx) (channel_queues (enqueued nr ctx clean_roles self)) =
  channel_queues (enqueued nr ctx clean_roles self).
Proof. unfold enqueued. cbn [channel_queues]. apply touch_touch. Qed.

(** C4. Once the player is enqueued, let [(players, s)] be what [match_game]
    returns: if [s > -0.1] the game is proposed without the mismatch
    warning; if [-0.2 < s <= -0.1] it is proposed with the warning; if
    [s <= -0.2] nothing is proposed. In all three cases the queues stay as
    the enqueue step left them. The bounds are those of the comparisons, so
    [s = -0.1] is a mismatch and [s = -0.2] proposes nothing. *)
Theorem queue_acceptance_thresholds wr nr (ctx : Context)
    (clean_roles : list Role) (self : QueueCog)
    (players : option Composition) (s : Q) :
  let enq := queue_enqueue nr ctx clean_roles self in
  let r := queue wr nr ctx clean_roles self in
  result enq = Ok false →
  result (match_game wr (channel_id ctx) (self_after enq)) = Ok (players, s) →
  channel_queues (self_after r) = channel_queues (self_after enq) ∧
  ((-0.1 < s)%Q →
     ∃ c, players = Some c ∧
          sent r = sent enq ++
                   [ProposedGame c false; AddReaction true; AddReaction false]) ∧
  ((-0.2 < s ∧ s <= -0.1)%Q →
     ∃ c, players = Some c ∧
          sent r = sent enq ++
                   [ProposedGame c true; AddReaction true; AddReaction false]) ∧
  ((s <= -0.2)%Q → result r = Ok tt ∧ sent r = sent enq).
Proof.
  intros enq r Henq. subst r. unfold queue.
  assert (touch (channel_id ctx) (channel_queues (self_after enq)) =
          channel_queues (self_after enq)) as Htouch.
  { subst enq. revert Henq. rewrite queue_enqueue_run.
    destruct (last_game_ongoing _ _); [done|]. intros _.
    apply enqueued_touched. }
  assert (queue_enqueue nr ctx clean_roles self =
          mkRun (Ok false) (self_after enq) (sent enq)) as Heta
    by (by rewrite <- Henq, run_eta).
  rewrite (bind_run _ _ _ _ _ _ Heta). clearbody enq.
  cbn [result self_after sent].
  rewrite match_game_run. cbn [result]. intros [= Hfound].
  rewrite queue_matchmaking_run, Hfound. cbn [fst snd]. rewrite Htouch.
  assert ((-0.2 < s)%Q → ∃ c, players = Some c) as Hsome.
  { intros Hs. destruct players as [c|]; [by eexists|].
    apply match_game_search_None in Hfound. subst s.
    vm_compute in Hs. discriminate. }
  destruct (Qlt_le_dec (-0.1) s) as [Hhi|Hhi].
  - destruct Hsome as [c ->]; [by apply (Qlt_trans _ (-0.1))|].
    rewrite start_game_run. cbn [result self_after sent channel_queues].
    split; [done|]. split; [by eexists|]. split.
    + intros [_ Hle]. by apply Qle_not_lt in Hle.
    + intros Hle. exfalso. apply (Qle_not_lt _ _ Hle).
      by apply (Qlt_trans _ (-0.1)).
  - destruct (Qlt_le_dec (-0.2) s) as [Hlo|Hlo].
    + destruct Hsome as [c ->]; [done|].
      rewrite start_game_run. cbn [result self_after sent channel_queues].
      split; [done|]. split; [|split].
      * intros Hlt. by apply Qle_not_lt in Hhi.
      * by eexists.
      * intros Hle. by apply Qle_not_lt in Hle.
    + cbn [result self_after sent channel_queues].
      split; [done|]. split; [|split].
      * intros Hlt. by apply Qle_not_lt in Hhi.
      * intros [Hlt _]. by apply Qle_not_lt in Hlo.
      * by rewrite app_nil_r.
Qed.

(** The tenth player joins under an estimate of 60 percent for blue: the
    score is exactly [-0.1], and the game is proposed with the warning. *)
Lemma queue_acceptance_thresholds_witness :
  ∃ c, Some [(blue, top, 2); (red, top, 1); (blue, jungle, 3); (red, jungle, 4);
             (blue, mid, 5); (red, mid, 6); (blue, bot, 7); (red, bot, 8);
             (blue, support, 9); (red, support, 10)] = Some c ∧
       sent (queue blue_favoured_winrate initial_rating (ctx_of 10 7) [support]
               nine_waiting_cog) =
       sent (queue_enqueue initial_rating (ctx_of 10 7) [support] nine_waiting_cog) ++
       [ProposedGame c true; AddReaction true; AddReaction false].
Proof.
  edestruct (queue_acceptance_thresholds blue_favoured_winrate initial_rating
               (ctx_of 10 7) [support] nine_waiting_cog) as (_ & _ & Hflag & _).
  - vm_compute. reflexivity.
  - vm_compute. reflexivity.
  - apply Hflag. split; [reflexivity | discriminate].
Defined.

Lemma start_game_state (ctx : Context) players (mismatch : bool) self :
  self_after (start_game ctx players mismatch self) = self.
Proof. by destruct players. Qed.

Lemma queue_matchmaking_state wr (ctx : Context) self :
  self_after (queue_matchmaking wr ctx self) =
  mkCog (touch (channel_id ctx) (channel_queues self)) (session self).
Proof.
  rewrite queue_matchmaking_run. cbn zeta.
  destruct (Qlt_le_dec _ _); [apply start_game_state|].
  destruct (Qlt_le_dec _ _); [apply start_game_state|done].
Qed.

Lemma cog_eta (self : QueueCog) : mkCog (channel_queues self) (session self) = self.
Proof. by destruct self. Qed.

(** The state [queue] ends in: the author merged, and enqueued unless the
    last game is still ongoing. *)
Lemma queue_state wr nr (ctx : Context) (clean_roles : list Role) self :
  self_after (queue wr nr ctx clean_roles self) =
  if last_game_ongoing (session self) (author_id ctx)
  then merge_author ctx self
  else enqueued nr ctx clean_roles self.
Proof.
  unfold queue, bind. rewrite queue_enqueue_run.
  destruct (last_game_ongoing _ _); cbn [result self_after sent]; [done|].
  rewrite queue_matchmaking_state, enqueued_touched. apply cog_eta.
Qed.

Lemma get_last_query_games (s s' : Session) (player : Player) :
  games s = games s' → get_last_query s player = get_last_query s' player.
Proof. unfold get_last_query, game_rows. by intros ->. Qed.

Lemma last_game_ongoing_games (s s' : Session) (player : Player) :
  games s = games s' → last_game_ongoing s player = last_game_ongoing s' player.
Proof.
  intros Hg. unfold last_game_ongoing. by rewrite (get_last_query_games s s').
Qed.

Section Enqueue.
Variable nr : Player → Role → Rating.
Variables (player : Player) (channel : Z).

Lemma enqueue_role_games self role :
  games (session (enqueue_role nr player channel self role)) = games (session self).
Proof.
  unfold enqueue_role. cbn [session].
  by destruct (ratings (session self) !! (player, role)).
Qed.

Lemma enqueue_role_players self role :
  players (session (enqueue_role nr player channel self role)) =
  players (session self).
Proof.
  unfold enqueue_role. cbn [session].
  by destruct (ratings (session self) !! (player, role)).
Qed.

Lemma foldl_enqueue_role_games self roles :
  games (session (foldl (enqueue_role nr player channel) self roles)) =
  games (session self).
Proof.
  revert self. induction roles as [|r roles IH]; intros self; simpl; [done|].
  by rewrite IH, enqueue_role_games.
Qed.

Lemma foldl_enqueue_role_players self roles :
  players (session (foldl (enqueue_role nr player channel) self roles)) =
  players (session self).
Proof.
  revert self. induction roles as [|r roles IH]; intros self; simpl; [done|].
  by rewrite IH, enqueue_role_players.
Qed.

Lemma enqueue_role_joined self role :
  joined player channel role (enqueue_role nr player channel self role).
Proof.
  unfold joined, enqueue_role. cbn [session channel_queues]. split.
  - destruct (ratings (session self) !! (player, role)) eqn:Hr; cbn [ratings].
    + by rewrite Hr.
    + by rewrite lookup_insert_eq.
  - eexists _, _. rewrite !lookup_insert_eq. split; [done|]. split; [done|].
    set_solver.
Qed.

Lemma enqueue_role_mono self role role' :
  joined player channel role self →
  joined player channel role (enqueue_role nr player channel self role').
Proof.
  intros [[rating Hr] (queues & X & Hq & HX & Hin)].
  unfold joined, enqueue_role. cbn [session channel_queues]. split.
  - destruct (ratings (session self) !! (player, role')) eqn:Hr'; cbn [ratings].
    + by rewrite Hr.
    + destruct (decide (role' = role)) as [->|Hne]; [congruence|].
      rewrite lookup_insert_ne by congruence. by rewrite Hr.
  - unfold channel_of. rewrite Hq. cbn [default].
    rewrite lookup_insert_eq.
    destruct (decide (role' = role)) as [->|Hne].
    + eexists _, _. rewrite lookup_insert_eq. split; [done|]. split; [done|].
      set_solver.
    + eexists _, X. rewrite lookup_insert_ne by done. done.
Qed.

Lemma enqueue_role_fixed self role :
  joined player channel role self → enqueue_role nr player channel self role = self.
Proof.
  intros [[rating Hr] (queues & X & Hq & HX & Hin)].
  unfold enqueue_role. rewrite Hr. unfold channel_of. rewrite Hq. cbn [default].
  rewrite (lookup_total_correct _ _ _ HX).
  assert ({[player]} ∪ X = X) as -> by set_solver.
  rewrite (insert_id queues), (insert_id (channel_queues self)) by done.
  apply cog_eta.
Qed.

Lemma foldl_enqueue_role_mono self role roles :
  joined player channel role self →
  joined player channel role (foldl (enqueue_role nr player channel) self roles).
Proof.
  revert self. induction roles as [|r roles IH]; intros self Hj; simpl; [done|].
  by apply IH, enqueue_role_mono.
Qed.

Lemma foldl_enqueue_role_joined self role roles :
  role ∈ roles →
  joined player channel role (foldl (enqueue_role nr player channel) self roles).
Proof.
  revert self. induction roles as [|r roles IH]; intros self Hin; simpl.
  - by apply elem_of_nil in Hin.
  - apply elem_of_cons in Hin as [->|Hin]; [|by apply IH].
    apply foldl_enqueue_role_mono, enqueue_role_joined.
Qed.

Lemma foldl_enqueue_role_fixed self roles :
  (∀ role, role ∈ roles → joined player channel role self) →
  foldl (enqueue_role nr player channel) self roles = self.
Proof.
  induction roles as [|r roles IH]; intros Hj; simpl; [done|].
  rewrite enqueue_role_fixed by (apply Hj; left).
  apply IH. intros role Hin. apply Hj. by right.
Qed.
End Enqueue.

Lemma merge_author_fixed (ctx : Context) self :
  players (session self) !! author_id ctx = Some (author_name ctx) →
  merge_author ctx self = self.
Proof.
  destruct self as [q [pl g rt]]. unfold merge_author. simpl. intros Hpl.
  by rewrite insert_id.
Qed.

Lemma joined_touch (player : Player) (channel : Z) (role : Role) self :
  joined player channel role self →
  joined player channel role
    (mkCog (touch channel (channel_queues self)) (session self)).
Proof.
  intros [Hr (queues & X & Hq & HX & Hin)]. split; [done|].
  exists queues, X. cbn [channel_queues].
  by rewrite touch_present by (by eexists).
Qed.

Lemma enqueued_fixed nr (ctx : Context) (clean_roles : list Role) self :
  enqueued nr ctx clean_roles (enqueued nr ctx clean_roles self) =
  enqueued nr ctx clean_roles self.
Proof.
  set (self1 := enqueued nr ctx clean_roles self).
  assert (merge_author ctx self1 = self1) as Hmerge.
  { apply merge_author_fixed. unfold self1, enqueued. cbn [session].
    rewrite foldl_enqueue_role_players. unfold merge_author. cbn [session players].
    apply lookup_insert_eq. }
  assert (∀ role, role ∈ clean_roles →
            joined (author_id ctx) (channel_id ctx) role self1) as Hjoined.
  { intros role Hin. apply joined_touch. by apply foldl_enqueue_role_joined. }
  unfold enqueued at 1. fold self1. rewrite Hmerge.
  rewrite foldl_enqueue_role_fixed by done.
  unfold self1 at 1. rewrite enqueued_touched. apply cog_eta.
Qed.

(** C9. Joining twice is joining once: a second [queue] command of the same
    player in the same channel for the same roles leaves the cog, and with
    it every role queue, exactly as the first one left it. *)
Theorem queue_join_idempotent wr nr (ctx : Context) (clean_roles : list Role)
    (self : QueueCog) :
  let once := self_after (queue wr nr ctx clean_roles self) in
  let twice := self_after (queue wr nr ctx clean_roles once) in
  twice = once ∧ channel_queues twice = channel_queues once.
Proof.
  intros once twice.
  assert (twice = once) as Heq; [|by rewrite Heq].
  subst twice once. rewrite !queue_state.
  destruct (last_game_ongoing (session self) (author_id ctx)) eqn:Hongoing.
  - rewrite (last_game_ongoing_games _ (session self)) by done.
    rewrite Hongoing. apply merge_author_fixed.
    unfold merge_author. cbn [session players]. apply lookup_insert_eq.
  - rewrite (last_game_ongoing_games _ (session self)).
    + rewrite Hongoing. apply enqueued_fixed.
    + unfold enqueued. cbn [session]. by rewrite foldl_enqueue_role_games.
Qed.

(** ** The query of [get_last] *)

#[local] Instance date_desc_transitive : Transitive date_desc.
Proof. intros a b c. unfold date_desc. lia. Qed.

#[local] Instance date_desc_total : Total date_desc.
Proof. intros a b. unfold date_desc. lia. Qed.

Lemma elem_of_game_rows (s : Session) game_id game participant :
  (game_id, game, participant) ∈ game_rows s ↔
  games s !! game_id = Some game ∧ participant ∈ participants game.
Proof.
  unfold game_rows. rewrite list_elem_of_In, in_flat_map. split.
  - intros ([game_id' game'] & Hin & Hrow).
    apply list_elem_of_In, list_elem_of_fmap in Hrow as (p & [= -> -> ->] & Hp).
    by apply list_elem_of_In, elem_of_map_to_list in Hin.
  - intros [Hlookup Hp]. exists (game_id, game). split.
    + by apply list_elem_of_In, elem_of_map_to_list.
    + apply list_elem_of_In, list_elem_of_fmap. by eexists.
Qed.

(** [get_last] returns a game the player takes part in, and none of the
    player's games is more recent. *)
Lemma get_last_query_Some (s : Session) (player : Player) game_id game participant :
  get_last_query s player = Some (game_id, game, participant) →
  games s !! game_id = Some game ∧ participant ∈ participants game ∧
  player_id participant = player ∧
  ∀ game_id' game' participant',
    games s !! game_id' = Some game' → participant' ∈ participants game' →
    player_id participant' = player → date game' ≤ date game.
Proof.
  unfold get_last_query, order_by_date_desc.
  set (rows := filter _ (game_rows s)). intros Hhead.
  pose proof (StronglySorted_merge_sort date_desc rows) as Hsorted.
  pose proof (merge_sort_Permutation date_desc rows) as Hperm.
  apply head_Some in Hhead as [rest Hrest]. rewrite Hrest in Hsorted, Hperm.
  assert ((game_id, game, participant) ∈ rows) as Hin
    by (rewrite <- Hperm; left).
  apply list_elem_of_filter in Hin as [Hplayer Hin].
  apply elem_of_game_rows in Hin as [Hlookup Hp].
  split; [done|]. split; [done|]. split; [done|].
  intros game_id' game' participant' Hlookup' Hp' Hplayer'.
  assert ((game_id', game', participant') ∈ rows) as Hin'.
  { apply list_elem_of_filter. split; [done|]. by apply elem_of_game_rows. }
  rewrite <- Hperm in Hin'. apply elem_of_cons in Hin' as [[= -> -> ->]|Hin']; [lia|].
  apply StronglySorted_inv in Hsorted as [_ Hall].
  rewrite Forall_forall in Hall. by apply Hall in Hin'.
Qed.

(** [get_last] returns [None] exactly for a player who is in no game. *)
Lemma get_last_query_None (s : Session) (player : Player) :
  get_last_query s player = None ↔
  ∀ game_id game participant,
    games s !! game_id = Some game → participant ∈ participants game →
    player_id participant ≠ player.
Proof.
  unfold get_last_query, order_by_date_desc.
  set (rows := filter _ (game_rows s)).
  pose proof (merge_sort_Permutation date_desc rows) as Hperm. split.
  - intros Hhead game_id game participant Hlookup Hp Hplayer.
    apply head_None in Hhead. rewrite Hhead in Hperm.
    apply Permutation_nil_l in Hperm.
    assert ((game_id, game, participant) ∈ rows) as Hin.
    { apply list_elem_of_filter. split; [done|]. by apply elem_of_game_rows. }
    rewrite <- Hperm in Hin. by apply elem_of_nil in Hin.
  - intros Hnone. destruct (head _) as [[[game_id game] participant]|] eqn:Hhead; [|done].
    apply head_Some in Hhead as [rest Hrest]. rewrite Hrest in Hperm.
    assert ((game_id, game, participant) ∈ rows) as Hin
      by (rewrite <- Hperm; left).
    apply list_elem_of_filter in Hin as [Hplayer Hin].
    apply elem_of_game_rows in Hin as [Hlookup Hp].
    by destruct (Hnone game_id game participant).
Qed.

Lemma joined_waiting (player : Player) (channel : Z) (role : Role) self :
  joined player channel role self →
  player ∈ waiting (channel_queues self) channel role.
Proof.
  intros [_ (queues & X & Hq & HX & Hin)]. unfold waiting. rewrite Hq.
  by rewrite (lookup_total_correct _ _ _ HX).
Qed.

(** C6, as the code has it. The gate of [queue] looks at the player's last
    game only: when that game has no winner the command answers that the
    last game is still ongoing and no queue changes; when the player has no
    game, or the last game has a winner, the player is admitted to every
    requested role queue. *)
Theorem queue_gate_on_last_game wr nr (ctx : Context) (clean_roles : list Role)
    (self : QueueCog) :
  let r := queue wr nr ctx clean_roles self in
  (last_game_ongoing (session self) (author_id ctx) = true →
     result r = Ok tt ∧ sent r = [LastGameOngoing] ∧
     channel_queues (self_after r) = channel_queues self) ∧
  (last_game_ongoing (session self) (author_id ctx) = false →
     ∀ role, role ∈ clean_roles →
       author_id ctx ∈
         waiting (channel_queues (self_after r)) (channel_id ctx) role).
Proof.
  intros r. split; intros Hgate.
  - subst r. unfold queue, bind. rewrite queue_enqueue_run, Hgate. done.
  - intros role Hin. subst r. rewrite queue_state, Hgate.
    apply joined_waiting, joined_touch. by apply foldl_enqueue_role_joined.
Qed.

(** The gate on a player whose only game has no winner, and on a player
    whose last game has one. *)
Lemma queue_gate_on_last_game_witness :
  sent (queue even_winrate initial_rating (ctx_of 1 7) [top] (one_game_cog None)) =
    [LastGameOngoing] ∧
  1 ∈ waiting (channel_queues
                 (self_after (queue even_winrate initial_rating (ctx_of 1 7) [top]
                                (one_game_cog (Some blue))))) 7 top.
Proof.
  split.
  - apply (queue_gate_on_last_game even_winrate initial_rating (ctx_of 1 7) [top]
             (one_game_cog None)).
    vm_compute. reflexivity.
  - apply (queue_gate_on_last_game even_winrate initial_rating (ctx_of 1 7) [top]
             (one_game_cog (Some blue))).
    + vm_compute. reflexivity.
    + left.
Defined.

(** C6, as stated, fails: player 1 has the unresolved game 1, yet the later
    game 2 has a winner, and [queue] admits the player to the top queue. *)
Lemma queue_admits_player_with_older_unresolved_game :
  (∃ game, games (session two_games_cog) !! 1 = Some game ∧
           winner game = None ∧ 1 ∈ player_id <$> participants game) ∧
  sent (queue even_winrate initial_rating (ctx_of 1 7) [top] two_games_cog) =
    [NowInQueue "player" [top]
       [(top, ["player"]); (jungle, []); (mid, []); (bot, []); (support, [])]] ∧
  waiting (channel_queues
             (self_after (queue even_winrate initial_rating (ctx_of 1 7) [top]
                            two_games_cog))) 7 top = {[1]}.
Proof.
  split; [|split].
  - exists (mkGame 100 None ten_participants). split; [done|]. split; [done|].
    left.
  - vm_compute. reflexivity.
  - vm_compute. reflexivity.
Qed.

(** ** Reporting a result *)

Lemma score_game_run (ctx : Context) (claimed_win : bool) self :
  score_game ctx claimed_win self =
  match get_last_query (session self) (author_id ctx) with
  | None => mkRun (Raised TypeError) (merge_author ctx self) []
  | Some (game_id, game, participant) =>
      let new_winner := scored_winner (team participant) claimed_win in
      mkRun (Ok tt) (with_winner game_id new_winner (merge_author ctx self))
        (match winner game with
         | Some w =>
             if decide (w ≠ new_winner)
             then [ResultChanged game_id; RatingsRecomputed game_id]
             else []
         | None => []
         end)
  end.
Proof.
  unfold score_game.
  rewrite (bind_run_silent _ _ _ _ _ (get_player_run _ _)).
  rewrite (bind_run_silent _ _ _ _ _ (get_last_run _ _)).
  rewrite (get_last_query_games _ (session self)) by done.
  destruct (get_last_query (session self) (author_id ctx))
    as [[[game_id game] participant]|]; [|done].
  unfold unpack, bind, ret, scored_winner. cbn [result self_after sent].
  destruct (winner game) as [w|]; [|done].
  by destruct (decide _).
Qed.

(** C1 at the failing input: player 2 plays red in game 1, which has no
    winner yet, and reports a loss with [lost]; the winner recorded is red,
    the reporter's own team, where a loss of red is a win of blue. *)
Theorem lost_by_red_player_records_red :
  get_last_query (session (one_game_cog None)) 2 =
    Some (1, mkGame 100 None ten_participants, mkParticipant 2 red top None) ∧
  result (lost (ctx_of 2 7) (one_game_cog None)) = Ok tt ∧
  games (session (self_after (lost (ctx_of 2 7) (one_game_cog None)))) !! 1 =
    Some (mkGame 100 (Some red) ten_participants).
Proof. split; [|split]; vm_compute; reflexivity. Qed.

(** The three other cases of [score_game] record what the report says. *)
Lemma scored_winner_cases :
  scored_winner blue true = blue ∧ scored_winner blue false = opposing blue ∧
  scored_winner red true = red ∧ scored_winner red false ≠ opposing red.
Proof. by repeat split. Qed.

(** A player who never played: [won] ends in an uncaught [TypeError]. *)
Lemma won_never_played_raises :
  result (won (ctx_of 1 7) empty_cog) = Raised TypeError.
Proof. reflexivity. Qed.

(** C7, as the code has it. For a player whose most recent game already has
    a winner, [score_game] raises nothing and signals no missing game: it
    records the winner computed from the report on that game again, and
    announces a changed result when it differs from the one recorded. *)
Theorem score_game_rescores_last_game (ctx : Context) (claimed_win : bool)
    (self : QueueCog) (game_id : Z) (game : Game)
    (participant : GameParticipant) (w : Team) :
  get_last_query (session self) (author_id ctx) = Some (game_id, game, participant) →
  winner game = Some w →
  let r := score_game ctx claimed_win self in
  let new_winner := scored_winner (team participant) claimed_win in
  result r = Ok tt ∧
  games (session (self_after r)) !! game_id =
    Some (mkGame (date game) (Some new_winner) (participants game)) ∧
  sent r = if decide (w ≠ new_winner)
           then [ResultChanged game_id; RatingsRecomputed game_id]
           else [].
Proof.
  intros Hlast Hw r new_winner. subst r. rewrite score_game_run, Hlast, Hw.
  cbn [result self_after sent]. split; [done|]. split; [|done].
  apply get_last_query_Some in Hlast as (Hlookup & _).
  unfold with_winner, merge_author. cbn [session games].
  by rewrite lookup_alter_eq, Hlookup.
Qed.

(** Player 1 plays blue in game 1, which blue won, and reports a loss. *)
Lemma score_game_rescores_last_game_witness :
  result (score_game (ctx_of 1 7) false (one_game_cog (Some blue))) = Ok tt ∧
  games (session (self_after (score_game (ctx_of 1 7) false
                                (one_game_cog (Some blue))))) !! 1 =
    Some (mkGame 100 (Some red) ten_participants) ∧
  sent (score_game (ctx_of 1 7) false (one_game_cog (Some blue))) =
    [ResultChanged 1; RatingsRecomputed 1].
Proof.
  apply (score_game_rescores_last_game (ctx_of 1 7) false (one_game_cog (Some blue))
           1 (mkGame 100 (Some blue) ten_participants)
           (mkParticipant 1 blue top None) blue).
  - vm_compute. reflexivity.
  - reflexivity.
Defined.

(** C7, as stated, fails: player 1 has no unresolved game, the only game
    having been won by blue, and [won] answers with a plain success that
    records blue again; no outcome tells the caller there was nothing to
    score. *)
Lemma won_on_resolved_game_succeeds :
  (∀ game_id game, games (session (one_game_cog (Some blue))) !! game_id = Some game →
                   winner game ≠ None) ∧
  won (ctx_of 1 7) (one_game_cog (Some blue)) =
    mkRun (Ok tt)
      (with_winner 1 blue (merge_author (ctx_of 1 7) (one_game_cog (Some blue))))
      [].
Proof.
  split.
  - intros game_id game Hlookup. unfold one_game_cog in Hlookup.
    cbn [session games] in Hlookup.
    apply lookup_singleton_Some in Hlookup as [_ <-]. done.
  - unfold won. rewrite score_game_run.
    assert (get_last_query (session (one_game_cog (Some blue))) (author_id (ctx_of 1 7)) =
            Some (1, mkGame 100 (Some blue) ten_participants,
                  mkParticipant 1 blue top None)) as ->
      by (vm_compute; reflexivity).
    reflexivity.
Qed.

(** ** Leaving the queue *)

Lemma default_queues_lookup (role : Role) : default_queues !!! role = (∅ : gset Z).
Proof. by destruct role. Qed.

Lemma waiting_channel_of (q : gmap Z RoleQueues) (channel : Z) (role : Role) :
  waiting q channel role = channel_of q channel !!! role.
Proof.
  unfold waiting, channel_of. destruct (q !! channel); [done|].
  by rewrite default_queues_lookup.
Qed.

Lemma channel_of_touch (q : gmap Z RoleQueues) (channel channel' : Z) :
  channel_of (touch channel q) channel' = channel_of q channel'.
Proof.
  unfold touch, channel_of. destruct (q !! channel) eqn:Hq; [done|].
  destruct (decide (channel = channel')) as [<-|Hne].
  - by rewrite lookup_insert_eq, Hq.
  - by rewrite lookup_insert_ne.
Qed.

Lemma lookup_touch_ne (q : gmap Z RoleQueues) (channel channel' : Z) :
  channel ≠ channel' → touch channel q !! channel' = q !! channel'.
Proof.
  intros Hne. unfold touch. destruct (q !! channel); [done|].
  by rewrite lookup_insert_ne.
Qed.

Lemma foldl_cog {A} (g : gmap Z RoleQueues → A → gmap Z RoleQueues)
    (xs : list A) self :
  foldl (λ s x, mkCog (g (channel_queues s) x) (session s)) self xs =
  mkCog (foldl g (channel_queues self) xs) (session self).
Proof.
  revert self. induction xs as [|x xs IH]; intros self; simpl.
  - by rewrite cog_eta.
  - by rewrite IH.
Qed.

Section Discard.
Variable player : Player.

Lemma waiting_discard_role q channel role channel' role' :
  waiting (discard_role player channel q role) channel' role' =
  if decide (channel' = channel ∧ role' = role)
  then waiting q channel' role' ∖ {[player]}
  else waiting q channel' role'.
Proof.
  rewrite !waiting_channel_of. unfold discard_role.
  destruct (decide (channel' = channel)) as [->|Hch].
  - unfold channel_of at 1. rewrite lookup_insert_eq. cbn [default]. unfold id.
    destruct (decide (role' = role)) as [->|Hrole].
    + rewrite lookup_total_insert_eq. by rewrite decide_True.
    + rewrite lookup_total_insert_ne by done. rewrite decide_False; [done|].
      by intros [_ ?].
  - unfold channel_of at 1. rewrite lookup_insert_ne by done.
    rewrite decide_False; [done|]. by intros [? _].
Qed.

Lemma lookup_discard_role q channel role channel' :
  channel' ≠ channel → discard_role player channel q role !! channel' = q !! channel'.
Proof. intros Hne. unfold discard_role. by rewrite lookup_insert_ne. Qed.

Lemma waiting_foldl_discard_role q channel roles channel' role' :
  waiting (foldl (discard_role player channel) q roles) channel' role' =
  if decide (channel' = channel ∧ role' ∈ roles)
  then waiting q channel' role' ∖ {[player]}
  else waiting q channel' role'.
Proof.
  revert q. induction roles as [|r roles IH]; intros q; simpl.
  - rewrite decide_False; [done|]. intros [_ Hin]. by apply elem_of_nil in Hin.
  - rewrite IH, waiting_discard_role.
    destruct (decide (channel' = channel ∧ role' ∈ roles)) as [[-> Hin]|Hnin].
    + rewrite (decide_True (P := channel = channel ∧ role' ∈ r :: roles))
        by (split; [done|by right]).
      destruct (decide (channel = channel ∧ role' = r)); set_solver.
    + destruct (decide (channel' = channel ∧ role' = r)) as [[-> ->]|Hne].
      * rewrite decide_True; [done|]. split; [done|left].
      * rewrite decide_False; [done|].
        intros [-> Hin]. apply elem_of_cons in Hin as [->|Hin]; tauto.
Qed.

Lemma lookup_foldl_discard_role q channel roles channel' :
  channel' ≠ channel →
  foldl (discard_role player channel) q roles !! channel' = q !! channel'.
Proof.
  intros Hne. revert q. induction roles as [|r roles IH]; intros q; simpl; [done|].
  by rewrite IH, lookup_discard_role.
Qed.

Lemma waiting_discard_channel q channel channel' role' :
  waiting (discard_channel player q channel) channel' role' =
  if decide (channel' = channel)
  then waiting q channel' role' ∖ {[player]}
  else waiting q channel' role'.
Proof.
  unfold discard_channel. rewrite waiting_foldl_discard_role.
  rewrite !waiting_channel_of, channel_of_touch.
  destruct (decide (channel' = channel)) as [->|Hne].
  - destruct (decide (channel = channel ∧ _)) as [|Hnin]; [done|].
    destruct (channel_of q channel !! role') as [X|] eqn:HX.
    + destruct Hnin. split; [done|].
      apply list_elem_of_fmap. exists (role', X). split; [done|].
      by apply elem_of_map_to_list.
    + rewrite lookup_total_alt, HX. cbn [default]. set_solver.
  - rewrite decide_False; [done|]. by intros [? _].
Qed.

Lemma lookup_discard_channel q channel channel' :
  channel' ≠ channel → discard_channel player q channel !! channel' = q !! channel'.
Proof.
  intros Hne. unfold discard_channel.
  rewrite lookup_foldl_discard_role by done. by apply lookup_touch_ne.
Qed.

Lemma waiting_foldl_discard_channel q channels channel' role' :
  waiting (foldl (discard_channel player) q channels) channel' role' =
  if decide (channel' ∈ channels)
  then waiting q channel' role' ∖ {[player]}
  else waiting q channel' role'.
Proof.
  revert q. induction channels as [|c channels IH]; intros q; cbn [foldl].
  - case_decide as Hin; [by apply elem_of_nil in Hin|done].
  - rewrite IH, waiting_discard_channel.
    repeat case_decide; try done; set_solver.
Qed.
End Discard.

Lemma leave_channel_run (player : Player) (channel : Z) self :
  (queues <- channel_queues_getitem channel ;;
   for_each (map_to_list queues).*1 (λ role, queue_discard channel role player)) self =
  mkRun (Ok tt)
    (mkCog (discard_channel player (channel_queues self) channel) (session self)) [].
Proof.
  rewrite (bind_run_silent _ _ _ _ _ (channel_queues_getitem_run _ _)).
  rewrite (for_each_foldl _ _
             (λ s role, mkCog (discard_role player channel (channel_queues s) role)
                              (session s))).
  - by rewrite foldl_cog.
  - intros role s. apply queue_discard_run.
Qed.

Lemma leave_queue_run (ctx : Context) (args : list string) self :
  ∃ msgs,
    leave_queue ctx args self =
    mkRun (Ok tt)
      (mkCog (touch (channel_id ctx)
                (foldl (discard_channel (author_id ctx)) (channel_queues self)
                       (leave_channels ctx args (channel_queues self))))
             (session (merge_author ctx self)))
      msgs.
Proof.
  eexists. unfold leave_queue.
  rewrite (bind_run_silent _ _ _ _ _ (get_player_run _ _)).
  unfold bind at 1. unfold get_self at 1. cbn [result self_after sent].
  rewrite (bind_run_silent _ _ _ _ _
             (for_each_foldl _ _
                (λ s channel, mkCog (discard_channel (author_id ctx) (channel_queues s) channel)
                                    (session s))
                _ (leave_channel_run (author_id ctx)))).
  rewrite foldl_cog.
  rewrite (bind_run_silent _ _ _ _ _ (get_current_queue_embed_run _ _)).
  reflexivity.
Qed.

Lemma waiting_touch (q : gmap Z RoleQueues) (channel channel' : Z) (role : Role) :
  waiting (touch channel q) channel' role = waiting q channel' role.
Proof. by rewrite !waiting_channel_of, channel_of_touch. Qed.

(** C10. Without arguments [leave_queue] takes the player out of the role
    queues of the current channel and leaves every other channel as it was;
    with any argument at all, whatever the word, it takes the player out of
    the role queues of every channel. Nobody else leaves a queue. *)
Theorem leave_queue_scope (ctx : Context) (args : list string) (self : QueueCog) :
  let q := channel_queues self in
  let q' := channel_queues (self_after (leave_queue ctx args self)) in
  (args = [] →
     (∀ channel, channel ≠ channel_id ctx → q' !! channel = q !! channel) ∧
     (∀ role, waiting q' (channel_id ctx) role =
              waiting q (channel_id ctx) role ∖ {[author_id ctx]})) ∧
  (args ≠ [] →
     ∀ channel role,
       waiting q' channel role = waiting q channel role ∖ {[author_id ctx]}).
Proof.
  intros q q'. subst q'.
  destruct (leave_queue_run ctx args self) as [msgs ->].
  cbn [self_after channel_queues].
  fold q. split.
  - intros ->. cbn [leave_channels foldl]. split.
    + intros channel Hne.
      rewrite lookup_touch_ne by done. by apply lookup_discard_channel.
    + intros role. rewrite waiting_touch, waiting_discard_channel.
      by rewrite decide_True.
  - intros Hargs channel role. destruct args as [|word args]; [done|].
    cbn [leave_channels]. rewrite waiting_touch, waiting_foldl_discard_channel.
    case_decide as Hin; [done|].
    unfold waiting. destruct (q !! channel) as [queues|] eqn:Hq; [|set_solver].
    destruct Hin. apply list_elem_of_fmap. exists (channel, queues).
    split; [done|]. by apply elem_of_map_to_list.
Qed.

(** Player 1 waits in channels 7 and 8 and leaves from channel 7, once
    without a word and once with the word [everywhere]. *)
Lemma leave_queue_scope_witness :
  waiting (channel_queues
             (self_after (leave_queue (ctx_of 1 7) []
                            (mkCog {[7 := {[top := {[1; 2]}]}; 8 := {[mid := {[1]}]}]}
                                   empty_session)))) 8 mid = {[1]} ∧
  waiting (channel_queues
             (self_after (leave_queue (ctx_of 1 7) ["everywhere"]
                            (mkCog {[7 := {[top := {[1; 2]}]}; 8 := {[mid := {[1]}]}]}
                                   empty_session)))) 8 mid = ∅.
Proof.
  split.
  - destruct (leave_queue_scope (ctx_of 1 7) []
                (mkCog {[7 := {[top := {[1; 2]}]}; 8 := {[mid := {[1]}]}]} empty_session))
      as [[Hframe _] _]; [reflexivity|].
    unfold waiting. rewrite Hframe by discriminate. vm_compute. reflexivity.
  - destruct (leave_queue_scope (ctx_of 1 7) ["everywhere"]
                (mkCog {[7 := {[top := {[1; 2]}]}; 8 := {[mid := {[1]}]}]} empty_session))
      as [_ Hall].
    rewrite Hall by discriminate. vm_compute. reflexivity.
Defined.

(** ** Cancelling a game *)

(** C8, as the code has it. [cancel_game] never looks at the winner: for
    every game the session holds, scored or not, it deletes the game and
    answers that the game is cancelled; for an id no game has it raises
    [NoResultFound] and changes nothing. *)
Theorem cancel_game_deletes_any_game (ctx : Context) (game_id : Z) (self : QueueCog) :
  let r := cancel_game ctx game_id self in
  (∀ game, games (session self) !! game_id = Some game →
     result r = Ok tt ∧ sent r = [GameCancelled game_id] ∧
     games (session (self_after r)) = delete game_id (games (session self)) ∧
     games (session (self_after r)) !! game_id = None) ∧
  (games (session self) !! game_id = None →
     result r = Raised NoResultFound ∧ self_after r = self ∧ sent r = []).
Proof.
  intros r. subst r. unfold cancel_game, bind, get_self.
  cbn [result self_after sent]. split.
  - intros game ->. cbn. split; [done|]. split; [done|]. split; [done|].
    apply lookup_delete_eq.
  - by intros ->.
Qed.

(** Game 1 of a session that holds only this game, won by blue. *)
Lemma cancel_game_deletes_any_game_witness :
  result (cancel_game (ctx_of 1 7) 1 (one_game_cog (Some blue))) = Ok tt ∧
  sent (cancel_game (ctx_of 1 7) 1 (one_game_cog (Some blue))) = [GameCancelled 1] ∧
  games (session (self_after (cancel_game (ctx_of 1 7) 1 (one_game_cog (Some blue))))) =
    delete 1 (games (session (one_game_cog (Some blue)))) ∧
  games (session (self_after (cancel_game (ctx_of 1 7) 1 (one_game_cog (Some blue)))))
    !! 1 = None.
Proof.
  destruct (cancel_game_deletes_any_game (ctx_of 1 7) 1 (one_game_cog (Some blue)))
    as [Hfound _].
  apply (Hfound (mkGame 100 (Some blue) ten_participants)). reflexivity.
Defined.

(** C8, as stated, fails: game 1 has the winner blue, and [cancel_game]
    succeeds on it and deletes its record. *)
Lemma cancel_game_deletes_scored_game :
  games (session (one_game_cog (Some blue))) !! 1 =
    Some (mkGame 100 (Some blue) ten_participants) ∧
  result (cancel_game (ctx_of 1 7) 1 (one_game_cog (Some blue))) = Ok tt ∧
  sent (cancel_game (ctx_of 1 7) 1 (one_game_cog (Some blue))) = [GameCancelled 1] ∧
  games (session (self_after (cancel_game (ctx_of 1 7) 1 (one_game_cog (Some blue)))))
    !! 1 = None.
Proof. repeat split; vm_compute; reflexivity. Qed.

(** ** Starting a game *)

(** A proposal never touches the cog: whatever the players answer, everyone
    stays in the queues. *)
Lemma start_game_keeps_queues (ctx : Context) players (mismatch : bool) self :
  channel_queues (self_after (start_game ctx players mismatch self)) =
  channel_queues self.
Proof. by rewrite start_game_state. Qed.

(** C5 at the failing input: the ten players of channel 7 are handed to
    [remove_players_from_queue], as after a confirmed proposal, and all of
    them still wait in their role queues. *)
Theorem remove_players_from_queue_removes_nobody :
  self_after (remove_players_from_queue [1; 2; 3; 4; 5; 6; 7; 8; 9; 10]
                ten_waiting_cog) = ten_waiting_cog ∧
  map (waiting (channel_queues
                  (self_after (remove_players_from_queue
                                 [1; 2; 3; 4; 5; 6; 7; 8; 9; 10] ten_waiting_cog))) 7)
      roles_list =
    [{[1; 2]}; {[3; 4]}; {[5; 6]}; {[7; 8]}; {[9; 10]}].
Proof. split; vm_compute; reflexivity. Qed.

(** ** Ratings *)

Lemma score_game_ratings (ctx : Context) (claimed_win : bool) self :
  ratings (session (self_after (score_game ctx claimed_win self))) =
  ratings (session self).
Proof.
  rewrite score_game_run.
  by destruct (get_last_query (session self) (author_id ctx))
    as [[[game_id game] participant]|].
Qed.

(** C2 at the failing input: player 1, rated for top, wins game 1 on the
    blue side and reports it with [won]. The stored rating stays the initial
    one, so it differs from the replay of the player's completed games under
    every update rule that changes the rating of a winner. *)
Theorem won_leaves_rating_unreplayed
    (updateRatings : Game → Team → Player → Role → Rating → Rating) :
  updateRatings (mkGame 100 (Some blue) ten_participants) blue 1 top
    (initial_rating 1 top) ≠ initial_rating 1 top →
  let after := session (self_after (won (ctx_of 1 7) rated_game_cog)) in
  games after !! 1 = Some (mkGame 100 (Some blue) ten_participants) ∧
  ratings after !! (1, top) = Some (initial_rating 1 top) ∧
  Some (replay updateRatings after 1 top (initial_rating 1 top)) ≠
    ratings after !! (1, top).
Proof.
  intros Hrule after.
  assert (games after !! 1 = Some (mkGame 100 (Some blue) ten_participants)) as Hgame
    by (vm_compute; reflexivity).
  assert (ratings after !! (1, top) = Some (initial_rating 1 top)) as Hrating
    by (subst after; unfold won; by rewrite score_game_ratings).
  split; [done|]. split; [done|]. rewrite Hrating. intros [= Hreplay].
  apply Hrule. rewrite <- Hreplay at 2.
  assert (completed_games_of after 1 top = [mkGame 100 (Some blue) ten_participants])
    as Hgames by (vm_compute; reflexivity).
  unfold replay. by rewrite Hgames.
Qed.

(** The rule that moves the mean of a winner up by one. *)
Lemma won_leaves_rating_unreplayed_witness :
  Some (replay unit_shift (session (self_after (won (ctx_of 1 7) rated_game_cog)))
          1 top (initial_rating 1 top)) ≠
  ratings (session (self_after (won (ctx_of 1 7) rated_game_cog))) !! (1, top).
Proof.
  apply (won_leaves_rating_unreplayed unit_shift). vm_compute. discriminate.
Defined.

(** * Further properties *)

(** ** The search of [match_game] *)

Lemma existsb_short_queue (queues : RoleQueues) :
  existsb (λ role, bool_decide (size (queues !!! role) < 2)%nat) roles_list = true ↔
  ∃ role, (size (queues !!! role) < 2)%nat.
Proof.
  rewrite existsb_exists. split.
  - intros (role & _ & Hshort). exists role. by apply bool_decide_eq_true in Hshort.
  - intros [role Hshort]. exists role. split.
    + destruct role; simpl; tauto.
    + by apply bool_decide_eq_true.
Qed.

(** [match_game] answers [(None, -1)] exactly when some role of the channel
    has fewer than two players waiting. *)
Theorem match_game_insufficient_queue wr (channel : Z) (self : QueueCog) :
  (∃ role, (size (waiting (channel_queues self) channel role) < 2)%nat) ↔
  result (match_game wr channel self) = Ok (None, (-1)%Q).
Proof.
  rewrite match_game_run. cbn [result]. unfold match_game_search.
  setoid_rewrite waiting_channel_of. rewrite <- existsb_short_queue.
  destruct (existsb _ roles_list); split; try done.
Qed.

Lemma foldl_seen_invariant {A B} (P : list A → B → Prop) (f : B → A → B)
    (l : list A) (b : B) :
  P [] b → (∀ seen x b, P seen b → P (seen ++ [x]) (f b x)) → P l (foldl f b l).
Proof.
  intros Hinit Hstep.
  assert (∀ seen b, P seen b → P (seen ++ l) (foldl f b l)) as Hgen.
  { induction l as [|x l IH]; intros seen b' Hb; simpl.
    - by rewrite app_nil_r.
    - rewrite (cons_middle x seen l), app_assoc. by apply IH, Hstep. }
  by apply (Hgen []).
Qed.

Lemma all_distinct_nonempty (players : Composition) : all_distinct players → players ≠ [].
Proof. by intros Hd ->. Qed.

Lemma match_game_step_invariant wr rt queues seen best tc :
  search_invariant wr rt queues seen best →
  search_invariant wr rt queues (seen ++ [tc]) (match_game_step wr rt best tc).
Proof.
  destruct best as [best_players best_score].
  unfold search_invariant. cbn [fst snd]. intros (Hbest & Hlow & Hmax).
  unfold match_game_step. case_decide as Hsize.
  - cbn [fst snd]. split; [|split; [done|]].
    + destruct Hbest as [?|(tc' & Hin & ?)]; [by left|right].
      exists tc'. split; [|done]. apply elem_of_app. by left.
    + intros tc' Hin Hdistinct. apply elem_of_app in Hin as [Hin|Hin]; [by apply Hmax|].
      apply list_elem_of_singleton in Hin as ->. by destruct Hsize.
  - fold (composition_score wr rt (composition_dict tc)).
    destruct (Qlt_le_dec _ _) as [Hlt|Hle]; cbn [fst snd].
    + split; [|split].
      * right. exists tc. split; [apply elem_of_app; right; left|].
        split; [done|]. split; [done|]. split; [done|]. by eapply Qle_lt_trans.
      * apply Qlt_le_weak. by eapply Qle_lt_trans.
      * intros tc' Hin Hdistinct. apply elem_of_app in Hin as [Hin|Hin].
        -- apply Qlt_le_weak. eapply Qle_lt_trans; [by apply Hmax|done].
        -- apply list_elem_of_singleton in Hin as ->. apply Qle_refl.
    + split; [|split; [done|]].
      * destruct Hbest as [?|(tc' & Hin & ?)]; [by left|right].
        exists tc'. split; [|done]. apply elem_of_app. by left.
      * intros tc' Hin Hdistinct. apply elem_of_app in Hin as [Hin|Hin]; [by apply Hmax|].
        by apply list_elem_of_singleton in Hin as ->.
Qed.

Lemma match_game_search_invariant wr rt queues :
  search_invariant wr rt queues (enumerated queues)
    (foldl (match_game_step wr rt) ([], (-1)%Q) (enumerated queues)).
Proof.
  apply (foldl_seen_invariant (search_invariant wr rt queues)).
  - split; [by left|]. split; [apply Qle_refl|]. intros tc Hin. by apply elem_of_nil in Hin.
  - intros seen tc best. apply match_game_step_invariant.
Qed.

Lemma match_game_search_Some wr rt queues players s :
  match_game_search wr rt queues = (Some players, s) →
  (players, s) = foldl (match_game_step wr rt) ([], (-1)%Q) (enumerated queues).
Proof.
  unfold match_game_search, enumerated.
  destruct (existsb _ roles_list); [done|]. intros [= <- <-].
  by destruct (foldl _ _ _).
Qed.

Lemma composition_score_nonpos wr rt players : (composition_score wr rt players <= 0)%Q.
Proof.
  unfold composition_score.
  apply (Qopp_le_compat 0 (Qabs (0.5 - wr rt players))), Qabs_nonneg.
Qed.

(** The score [match_game] returns lies between [-1] and [0]; it is [-1]
    when no composition is returned ([None] or the empty dict), and above
    [-1] when a composition is. *)
Theorem match_game_score_bounds wr (channel : Z) (self : QueueCog)
    (players : option Composition) (s : Q) :
  result (match_game wr channel self) = Ok (players, s) →
  (-1 <= s)%Q ∧ (s <= 0)%Q ∧
  (players = None ∨ players = Some [] → s = (-1)%Q) ∧
  (∀ c, players = Some c → c ≠ [] → (-1 < s)%Q).
Proof.
  rewrite match_game_run. cbn [result]. intros [= Hsearch].
  destruct players as [c|].
  - apply match_game_search_Some in Hsearch.
    pose proof (match_game_search_invariant wr (ratings (session self))
                  (channel_of (channel_queues self) channel)) as Hinv.
    rewrite <- Hsearch in Hinv. destruct Hinv as (Hbest & Hlow & _).
    cbn [fst snd] in *. split; [done|].
    destruct Hbest as [[-> ->]|(tc & _ & _ & Hd & Hs & Hlt)].
    + split; [done|]. split; [done|]. by intros c [= <-].
    + split; [rewrite Hs; apply composition_score_nonpos|]. split.
      * intros [[=]|[= ->]]. by apply all_distinct_nonempty in Hd.
      * by intros c' [= <-].
  - apply match_game_search_None in Hsearch as ->.
    split; [done|]. split; [done|]. split; [done|]. by intros c [=].
Qed.

(** The search on ten players, two per role, all compositions even. *)
Lemma match_game_score_bounds_witness :
  (-1 <= composition_score even_winrate ∅ (composition_dict odd_against_even))%Q ∧
  (composition_score even_winrate ∅ (composition_dict odd_against_even) <= 0)%Q.
Proof.
  edestruct (match_game_score_bounds even_winrate 7 ten_waiting_cog)
    as (Hlow & Hhigh & _).
  - vm_compute. reflexivity.
  - split; [exact Hlow|exact Hhigh].
Defined.

(** The composition [match_game] returns is the best of the valid ones: no
    enumerated composition of ten distinct players scores higher, and a
    non-empty result is one of them, returned with its own score. *)
Theorem match_game_best_score wr (channel : Z) (self : QueueCog)
    (players : Composition) (s : Q) :
  result (match_game wr channel self) = Ok (Some players, s) →
  let queues := channel_of (channel_queues self) channel in
  let rt := ratings (session self) in
  (∀ tc, tc ∈ enumerated queues → all_distinct (composition_dict tc) →
         (composition_score wr rt (composition_dict tc) <= s)%Q) ∧
  (players ≠ [] →
     ∃ tc, tc ∈ enumerated queues ∧ players = composition_dict tc ∧
           all_distinct players ∧ s = composition_score wr rt players).
Proof.
  intros Hres queues rt. rewrite match_game_run in Hres.
  cbn [result] in Hres. injection Hres as Hsearch.
  apply match_game_search_Some in Hsearch.
  pose proof (match_game_search_invariant wr rt queues) as Hinv.
  subst queues rt. rewrite <- Hsearch in Hinv.
  destruct Hinv as (Hbest & _ & Hmax). cbn [fst snd] in *. split; [done|].
  intros Hne. destruct Hbest as [[? _]|(tc & Hin & Hc & Hd & Hs & _)]; [done|].
  by exists tc.
Qed.

(** Ten players, two per role, with an estimate of 60 percent for blue:
    every composition scores [-0.1], and so does the returned one. *)
Lemma match_game_best_score_witness :
  (composition_score blue_favoured_winrate ∅
     (composition_dict odd_against_even) <= -0.1)%Q.
Proof.
  edestruct (match_game_best_score blue_favoured_winrate 7 ten_waiting_cog)
    as [Hmax _].
  - vm_compute. reflexivity.
  - apply (Hmax odd_against_even).
    + apply (bool_decide_unpack _). vm_compute. exact I.
    + vm_compute. reflexivity.
Defined.

Lemma permutations2_elem {A} (pool : list A) (x y : A) :
  (x, y) ∈ permutations2 pool → x ∈ pool ∧ y ∈ pool.
Proof.
  unfold permutations2. rewrite list_elem_of_In, in_flat_map.
  intros ([i x'] & Hx & Hin). apply in_flat_map in Hin as ([j y'] & Hy & Hin).
  apply list_elem_of_In, elem_of_lookup_imap in Hx as (i' & x'' & [= -> ->] & Hx).
  apply list_elem_of_In, elem_of_lookup_imap in Hy as (j' & y'' & [= -> ->] & Hy).
  destruct (decide (i' = j')); [by destruct Hin|].
  apply list_elem_of_In, list_elem_of_singleton in Hin as [= -> ->].
  split; by eapply list_elem_of_lookup_2.
Qed.

Lemma product_Forall2 {A} (ls : list (list A)) (xs : list A) :
  xs ∈ product ls → Forall2 (λ x l, x ∈ l) xs ls.
Proof.
  revert xs. induction ls as [|l ls IH]; simpl; intros xs Hin.
  - apply list_elem_of_singleton in Hin as ->. constructor.
  - apply list_elem_of_In, in_flat_map in Hin as (x & Hx & Hin).
    apply list_elem_of_In, list_elem_of_fmap in Hin as (ys & -> & Hys).
    constructor; [by apply list_elem_of_In|by apply IH].
Qed.

Lemma composition_dict_from_queues (queues : RoleQueues) tc (t : Team) (r : Role)
    (p : Player) :
  tc ∈ enumerated queues → (t, r, p) ∈ composition_dict tc → p ∈ queues !!! r.
Proof.
  intros Htc Hin. apply product_Forall2 in Htc. simpl in Htc.
  destruct tc as [|[a1 a2] [|[b1 b2] [|[c1 c2] [|[d1 d2] [|[e1 e2] [|? ?]]]]]];
    try (by repeat (apply Forall2_cons in Htc as [_ Htc] || inversion Htc)).
  repeat (apply Forall2_cons in Htc as [?%permutations2_elem Htc]).
  cbn in Hin.
  repeat (apply elem_of_cons in Hin as [[= -> -> ->]|Hin];
          [apply elem_of_elements; tauto|]).
  by apply elem_of_nil in Hin.
Qed.

(** Every player of the composition [match_game] returns was waiting, in
    that channel, for the role the composition gives them. *)
Theorem match_game_drafts_waiting_players wr (channel : Z) (self : QueueCog)
    (players : Composition) (s : Q) (t : Team) (r : Role) (p : Player) :
  result (match_game wr channel self) = Ok (Some players, s) →
  (t, r, p) ∈ players →
  p ∈ waiting (channel_queues self) channel r.
Proof.
  rewrite match_game_run. cbn [result]. intros [= Hsearch] Hin.
  apply match_game_search_Some in Hsearch.
  pose proof (match_game_search_invariant wr (ratings (session self))
                (channel_of (channel_queues self) channel)) as Hinv.
  rewrite <- Hsearch in Hinv. destruct Hinv as (Hbest & _). cbn [fst snd] in *.
  destruct Hbest as [[-> _]|(tc & Htc & -> & _)]; [by apply elem_of_nil in Hin|].
  rewrite waiting_channel_of. by eapply composition_dict_from_queues.
Qed.

(** Player 2, drafted for top on the blue side, waits for top. *)
Lemma match_game_drafts_waiting_players_witness :
  2 ∈ waiting (channel_queues ten_waiting_cog) 7 top.
Proof.
  eapply (match_game_drafts_waiting_players even_winrate 7 ten_waiting_cog _ _ blue).
  - vm_compute. reflexivity.
  - left.
Defined.

(** ** Further properties of [queue] *)

(** [queue] never raises: the [TypeError] of a player without games is
    caught, and [start_game] is only reached with a composition. *)
Theorem queue_never_raises wr nr (ctx : Context) (clean_roles : list Role)
    (self : QueueCog) :
  result (queue wr nr ctx clean_roles self) = Ok tt.
Proof.
  unfold queue, bind. rewrite queue_enqueue_run.
  destruct (last_game_ongoing _ _); cbn [result self_after sent]; [done|].
  rewrite queue_matchmaking_run. cbn zeta.
  destruct (match_game_search _ _ _) as [players s] eqn:Hsearch. cbn [fst snd].
  assert ((-0.2 < s)%Q → ∃ c, players = Some c) as Hsome.
  { intros Hs. destruct players as [c|]; [by eexists|].
    apply match_game_search_None in Hsearch. subst s.
    vm_compute in Hs. discriminate. }
  destruct (Qlt_le_dec (-0.1) s) as [Hhi|Hhi].
  - destruct Hsome as [c ->]; [by apply (Qlt_trans _ (-0.1))|].
    by rewrite start_game_run.
  - destruct (Qlt_le_dec (-0.2) s) as [Hlo|Hlo]; [|done].
    destruct Hsome as [c ->]; [done|]. by rewrite start_game_run.
Qed.

Lemma waiting_enqueue_role nr (player : Player) (channel : Z) self (r : Role)
    (channel' : Z) (role' : Role) :
  waiting (channel_queues (enqueue_role nr player channel self r)) channel' role' =
  if decide (channel' = channel ∧ role' = r)
  then {[player]} ∪ waiting (channel_queues self) channel' role'
  else waiting (channel_queues self) channel' role'.
Proof.
  rewrite !waiting_channel_of. unfold enqueue_role. cbn [channel_queues].
  destruct (decide (channel' = channel)) as [->|Hch].
  - unfold channel_of at 1. rewrite lookup_insert_eq. cbn [default]. unfold id.
    destruct (decide (role' = r)) as [->|Hrole].
    + rewrite lookup_total_insert_eq. by rewrite decide_True.
    + rewrite lookup_total_insert_ne by done. rewrite decide_False; [done|].
      by intros [_ ?].
  - unfold channel_of at 1. rewrite lookup_insert_ne by done.
    rewrite decide_False; [done|]. by intros [? _].
Qed.

Lemma waiting_foldl_enqueue_role nr (player : Player) (channel : Z) self
    (roles : list Role) (channel' : Z) (role' : Role) :
  waiting (channel_queues (foldl (enqueue_role nr player channel) self roles))
          channel' role' =
  if decide (channel' = channel ∧ role' ∈ roles)
  then {[player]} ∪ waiting (channel_queues self) channel' role'
  else waiting (channel_queues self) channel' role'.
Proof.
  revert self. induction roles as [|r roles IH]; intros self; cbn [foldl].
  - case_decide as Hin; [|done]. destruct Hin as [_ Hin]. by apply elem_of_nil in Hin.
  - rewrite IH, waiting_enqueue_role.
    repeat case_decide; try done; set_solver.
Qed.

(** An admitted [queue] command adds the author to the requested role
    queues of the current channel, and changes no other queue membership:
    nobody else joins or leaves, and no other channel or role is touched. *)
Theorem queue_adds_author_only wr nr (ctx : Context) (clean_roles : list Role)
    (self : QueueCog) (channel : Z) (r : Role) :
  last_game_ongoing (session self) (author_id ctx) = false →
  waiting (channel_queues (self_after (queue wr nr ctx clean_roles self))) channel r =
  if decide (channel = channel_id ctx ∧ r ∈ clean_roles)
  then {[author_id ctx]} ∪ waiting (channel_queues self) channel r
  else waiting (channel_queues self) channel r.
Proof.
  intros Hgate. rewrite queue_state, Hgate. unfold enqueued.
  cbn [channel_queues]. by rewrite waiting_touch, waiting_foldl_enqueue_role.
Qed.

(** Player 10 joins support in channel 7, where 9 waits for support. *)
Lemma queue_adds_author_only_witness :
  waiting (channel_queues
             (self_after (queue even_winrate initial_rating (ctx_of 10 7) [support]
                            nine_waiting_cog))) 7 support =
  {[10]} ∪ waiting (channel_queues nine_waiting_cog) 7 support.
Proof.
  rewrite (queue_adds_author_only even_winrate initial_rating (ctx_of 10 7) [support]
             nine_waiting_cog 7 support).
  - rewrite decide_True; [done|]. split; [done|left].
  - vm_compute. reflexivity.
Defined.
